(** * Top3-Hunter: the web client and the recommendation pipeline

    A shallow embedding of the TypeScript sources of the Top3-Hunter
    front end (the shared types, the [ApiClient], the search form and
    the page that hosts it, the helpers of [lib/utils.ts], the link
    handler of the results) together with the parts of the
    recommendation pipeline that the specification describes, and the
    properties proved about them.

    JavaScript values are modelled as the language defines them: a string
    is its sequence of UTF-16 code units, a [number] is an IEEE 754
    binary64 value, a rejected promise is a value of [outcome], and the
    mutable fields of an object are threaded through explicitly. *)

From Stdlib Require Import ZArith NArith Lia Bool.
From Stdlib Require Import Strings.String Strings.Ascii.
From Stdlib Require Import Floats.SpecFloat.
From Stdlib Require DecimalPos DecimalN.
From stdpp Require Import base option list gmap.

(** ** JavaScript strings, truthiness and the built-ins the sources call *)

Module JS.

(** A string value is a finite sequence of UTF-16 code units. *)
Abbreviation jsstr := (list N).

(** An ASCII literal as a string value. *)
Definition lit (s : string) : jsstr :=
  map N_of_ascii (list_ascii_of_string s).

(** [!s] for a string: only the empty string is falsy. *)
Definition truthy (s : jsstr) : bool :=
  match s with [] => false | _ :: _ => true end.

(** [a || b] where [a] is a string that may be [undefined]: the right
    operand is taken when the left one is missing or empty. *)
Definition or_else (a : option jsstr) (b : jsstr) : jsstr :=
  match a with
  | Some s => if truthy s then s else b
  | None => b
  end.

(** WhiteSpace and LineTerminator code points (ECMA-262, 12.2 and 12.3),
    the characters [String.prototype.trim] strips. *)
Definition isWhiteSpace (c : N) : bool :=
  ((c =? 0x09) || (c =? 0x0A) || (c =? 0x0B) || (c =? 0x0C) || (c =? 0x0D)
   || (c =? 0x20) || (c =? 0xA0) || (c =? 0x1680)
   || ((0x2000 <=? c) && (c <=? 0x200A))
   || (c =? 0x2028) || (c =? 0x2029) || (c =? 0x202F) || (c =? 0x205F)
   || (c =? 0x3000) || (c =? 0xFEFF))%N.

Fixpoint dropWhile {A} (p : A → bool) (s : list A) : list A :=
  match s with
  | [] => []
  | c :: s' => if p c then dropWhile p s' else s
  end.

Fixpoint takeWhile {A} (p : A → bool) (s : list A) : list A :=
  match s with
  | [] => []
  | c :: s' => if p c then c :: takeWhile p s' else []
  end.

Definition trimStart (s : jsstr) : jsstr := dropWhile isWhiteSpace s.

Definition trimEnd (s : jsstr) : jsstr :=
  rev (dropWhile isWhiteSpace (rev s)).

(** [String.prototype.trim]. *)
Definition trim (s : jsstr) : jsstr := trimEnd (trimStart s).

(** A [number] is an IEEE 754 binary64 value. *)
Abbreviation number := spec_float.

Definition prec : Z := 53.
Definition emax : Z := 1024.

(** The number value of an integer (exact below 2^53, rounded to nearest
    even above). *)
Definition ofZ (z : Z) : number := binary_normalize prec emax z 0 false.

(** Decimal digits of a natural number, most significant first. *)
Fixpoint uintUnits (d : Decimal.uint) : jsstr :=
  match d with
  | Decimal.Nil => []
  | Decimal.D0 d => 48%N :: uintUnits d
  | Decimal.D1 d => 49%N :: uintUnits d
  | Decimal.D2 d => 50%N :: uintUnits d
  | Decimal.D3 d => 51%N :: uintUnits d
  | Decimal.D4 d => 52%N :: uintUnits d
  | Decimal.D5 d => 53%N :: uintUnits d
  | Decimal.D6 d => 54%N :: uintUnits d
  | Decimal.D7 d => 55%N :: uintUnits d
  | Decimal.D8 d => 56%N :: uintUnits d
  | Decimal.D9 d => 57%N :: uintUnits d
  end.

Definition decimal (n : N) : jsstr := uintUnits (N.to_uint n).

(** *** Numbers: [parseFloat], [Number::toString], [toFixed] *)

(** DecimalDigit *)
Definition isDigit (c : N) : bool := ((48 <=? c) && (c <=? 57))%N.

(** The mathematical value of a sequence of decimal digits. *)
Definition digitsValue (s : jsstr) : N :=
  fold_left (λ acc c, (10 * acc + (c - 48))%N) s 0%N.

(** The number value nearest to the ratio of two positive integers
    (round to nearest, ties to even). *)
Definition roundRatio (neg : bool) (p q : positive) : number :=
  SFdiv prec emax (S754_finite neg p 0) (S754_finite false q 0).

(** The number value of [d * 10^e10]. *)
Definition roundDecimal (neg : bool) (d : N) (e10 : Z) : number :=
  match d with
  | N0 => S754_zero neg
  | Npos p =>
      roundRatio neg (p * Z.to_pos (10 ^ Z.max e10 0))
                     (Z.to_pos (10 ^ Z.max (- e10) 0))
  end.

(** An optional sign: whether it is [-], and what follows it. *)
Definition scanSign (s : jsstr) : bool * jsstr :=
  match s with
  | c :: s' =>
      if (c =? 45)%N then (true, s')
      else if (c =? 43)%N then (false, s')
      else (false, s)
  | [] => (false, [])
  end.

(** ExponentPart, when one is complete: [e] or [E], an optional sign,
    at least one digit. *)
Definition scanExponent (s : jsstr) : Z :=
  match s with
  | c :: s' =>
      if ((c =? 101) || (c =? 69))%N then
        let '(neg, t) := scanSign s' in
        let ds := takeWhile isDigit t in
        if truthy ds then
          (if neg then - Z.of_N (digitsValue ds) else Z.of_N (digitsValue ds))%Z
        else 0%Z
      else 0%Z
  | [] => 0%Z
  end.

Record Literal : Type := {
  intDigits : jsstr;
  fracDigits : jsstr;
  exponent : Z
}.

(** The longest prefix that is a StrUnsignedDecimalLiteral other than
    [Infinity]: digits, a point with or without digits after it, an
    exponent; at least one digit before or after the point. *)
Definition scanDecimal (s : jsstr) : option Literal :=
  let ip := takeWhile isDigit s in
  let s1 := dropWhile isDigit s in
  let '(fp, s2) :=
    match s1 with
    | c :: t =>
        if (c =? 46)%N then (takeWhile isDigit t, dropWhile isDigit t)
        else ([], s1)
    | [] => ([], [])
    end in
  if truthy ip || truthy fp then
    Some {| intDigits := ip; fracDigits := fp; exponent := scanExponent s2 |}
  else None.

Fixpoint isPrefixOf (p s : jsstr) : bool :=
  match p, s with
  | [], _ => true
  | a :: p', b :: s' => (a =? b)%N && isPrefixOf p' s'
  | _ :: _, [] => false
  end.

(** [parseFloat(string)] (ECMA-262, 19.2.4): leading whitespace is
    skipped, the longest prefix that is a StrDecimalLiteral is read, and
    its value is rounded to the nearest number; [NaN] without such a
    prefix. *)
Definition parseFloat (s : jsstr) : number :=
  let '(neg, u) := scanSign (trimStart s) in
  if isPrefixOf (lit "Infinity") u then S754_infinity neg
  else
    match scanDecimal u with
    | Some l =>
        roundDecimal neg (digitsValue (intDigits l ++ fracDigits l))
          (exponent l - Z.of_nat (length (fracDigits l)))
    | None => S754_nan
    end.

(** A finite non-zero magnitude [m * 2^e] as a ratio of positive
    integers. *)
Definition ratio (m : positive) (e : Z) : positive * positive :=
  match e with
  | Z0 => (m, 1%positive)
  | Zpos k => ((m * 2 ^ k)%positive, 1%positive)
  | Zneg k => (m, (2 ^ k)%positive)
  end.

(** The [n] with [10^(n-1) <= p/q < 10^n]. *)
Definition magnitude (p q : positive) : Z :=
  if (q <=? p)%positive then Z.of_nat (length (decimal (Npos p / Npos q)))
  else (1 - Z.of_nat (length (decimal ((Npos q - 1) / Npos p))))%Z.

(** [s * 10^t] as a ratio. *)
Definition scaled (s : positive) (t : Z) : positive * positive :=
  ((s * Z.to_pos (10 ^ Z.max t 0))%positive, Z.to_pos (10 ^ Z.max (- t) 0)).

(** The candidates with [k] digits for the digits of [p/q] (magnitude
    [n]): the integers just below and just above [p/q * 10^(k-n)]. *)
Definition candidates (p q : positive) (n : Z) (k : Z) : list positive :=
  let '(a, b) := scaled p (k - n) in
  let lo := (Zpos a / Zpos (b * q))%Z in
  [Z.to_pos lo; Z.to_pos (lo + 1)].

(** Twice the distance between [s * 10^t] and [p / q], over the common
    denominator. *)
Definition distance (p q : positive) (s : positive) (t : Z) : Z :=
  let '(a, b) := scaled s t in
  Z.abs (Zpos a * Zpos q - Zpos p * Zpos b).

Definition roundTrips (x : number) (s : positive) (t : Z) : bool :=
  let '(a, b) := scaled s t in
  match x, roundRatio false a b with
  | S754_finite _ m e, S754_finite _ m' e' => (m =? m')%positive && (e =? e')%Z
  | _, _ => false
  end.

(** The shortest digits that read back as [x]: [k] from 1 upwards, the
    first [k] for which a candidate round-trips; of two, the closer one,
    then the even one. Returns the digits [s] and the exponent [n] of
    Number::toString, step 5. *)
Fixpoint shortest (fuel : nat) (x : number) (p q : positive) (n k : Z)
  : positive * Z :=
  let cs := filter (λ s, roundTrips x s (n - k) = true) (candidates p q n k) in
  let pick :=
    match cs with
    | [s] => Some s
    | [lo; hi] =>
        match (distance p q lo (n - k) ?= distance p q hi (n - k))%Z with
        | Lt => Some lo
        | Gt => Some hi
        | Eq => Some (if Z.even (Zpos lo) then lo else hi)
        end
    | _ => None
    end in
  match pick, fuel with
  | Some s, _ =>
      if (Zpos s =? 10 ^ k)%Z then (Z.to_pos (10 ^ (k - 1)), (n + 1)%Z) else (s, n)
  | None, S fuel' => shortest fuel' x p q n (k + 1)
  | None, O => (hd 1%positive (candidates p q n k), n)
  end.

Definition zeros (n : nat) : jsstr := replicate n 48%N.

(** Number::toString(x, 10) (ECMA-262, 6.1.6.1.20). *)
Definition numberToString (x : number) : jsstr :=
  match x with
  | S754_nan => lit "NaN"
  | S754_zero _ => lit "0"
  | S754_infinity neg => (if neg then lit "-" else []) ++ lit "Infinity"
  | S754_finite neg m e =>
      let '(p, q) := ratio m e in
      let '(s, n) := shortest 17 x p q (magnitude p q) 1 in
      let ds := decimal (Npos s) in
      let k := Z.of_nat (length ds) in
      (if neg then lit "-" else []) ++
      if ((-5 <=? n) && (n <=? 21))%Z then
        if (k <=? n)%Z then ds ++ zeros (Z.to_nat (n - k))
        else if (0 <? n)%Z then
          take (Z.to_nat n) ds ++ lit "." ++ drop (Z.to_nat n) ds
        else lit "0." ++ zeros (Z.to_nat (- n)) ++ ds
      else
        let ex := ((if (0 <=? n - 1)%Z then lit "+" else lit "-")
                   ++ decimal (Z.to_N (Z.abs (n - 1)))) in
        match ds with
        | [d] => [d] ++ lit "e" ++ ex
        | d :: rest => [d] ++ lit "." ++ rest ++ lit "e" ++ ex
        | [] => []
        end
  end.

(** The integer nearest to [m * 2^e * 10^f], the larger one of two. *)
Definition scaledNearest (f : nat) (m : positive) (e : Z) : N :=
  let '(p, q) := ratio m e in
  ((2 * Npos p * 10 ^ N.of_nat f + Npos q) / (2 * Npos q))%N.

(** [x >= 10^21] for the magnitude [m * 2^e]. *)
Definition atLeast1e21 (m : positive) (e : Z) : bool :=
  let '(p, q) := ratio m e in (10 ^ 21 * Npos q <=? Npos p)%N.

(** Number.prototype.toFixed(f) (ECMA-262, 21.1.3.3), [0 <= f <= 100]. *)
Definition toFixed (f : nat) (x : number) : jsstr :=
  match x with
  | S754_nan | S754_infinity _ => numberToString x
  | S754_zero _ =>
      if (f =? 0)%nat then lit "0" else lit "0." ++ zeros f
  | S754_finite neg m e =>
      (if neg then lit "-" else []) ++
      if atLeast1e21 m e then numberToString (S754_finite false m e)
      else
        let ds := decimal (scaledNearest f m e) in
        if (f =? 0)%nat then ds
        else
          let ds := zeros (S f - length ds) ++ ds in
          let k := length ds in
          take (k - f) ds ++ lit "." ++ drop (k - f) ds
  end.


(** *** Regular expressions: sequences of quantified character classes *)

Inductive Quantifier : Set := Once | Optional | ZeroOrMore | OneOrMore.

(** An atom (a character or a class) with its greedy quantifier. *)
Record Term : Type := { accepts : N → bool; quantifier : Quantifier }.

(** The greedy loop of a quantified atom: as many characters as the
    atom accepts, one fewer each time the continuation [k] fails. The
    result is the number of code units matched from here to the end of
    the pattern. *)
Fixpoint repeatMatcher (p : N → bool) (k : jsstr → option nat) (s : jsstr)
  : option nat :=
  match s with
  | c :: s' =>
      if p c then
        match repeatMatcher p k s' with
        | Some n => Some (S n)
        | None => k s
        end
      else k s
  | [] => k []
  end.

(** The pattern matched at the start of [s]: the length of the match. *)
Fixpoint matchHere (ts : list Term) (s : jsstr) : option nat :=
  match ts with
  | [] => Some 0
  | t :: ts' =>
      match quantifier t with
      | Once =>
          match s with
          | c :: s' => if accepts t c then S <$> matchHere ts' s' else None
          | [] => None
          end
      | Optional =>
          match s with
          | c :: s' =>
              if accepts t c then
                match matchHere ts' s' with
                | Some n => Some (S n)
                | None => matchHere ts' s
                end
              else matchHere ts' s
          | [] => matchHere ts' []
          end
      | ZeroOrMore => repeatMatcher (accepts t) (matchHere ts') s
      | OneOrMore =>
          match s with
          | c :: s' =>
              if accepts t c then S <$> repeatMatcher (accepts t) (matchHere ts') s'
              else None
          | [] => None
          end
      end
  end.

(** The leftmost match: its index and its length. *)
Fixpoint search (ts : list Term) (s : jsstr) : option (nat * nat) :=
  match matchHere ts s with
  | Some n => Some (0, n)
  | None =>
      match s with
      | [] => None
      | _ :: s' => prod_map S id <$> search ts s'
      end
  end.

(** [s.match(regexp)[0]] for a regular expression without the [g] flag,
    or [null]. *)
Definition stringMatch (ts : list Term) (s : jsstr) : option jsstr :=
  '(i, n) ← search ts s; Some (take n (drop i s)).

(** [s.replace(regexp, r)] for a regular expression with the [g] flag;
    [skip] counts the characters of [s] still inside the last match. *)
Fixpoint replaceFrom (ts : list Term) (r : jsstr) (skip : nat) (s : jsstr)
  : jsstr :=
  match s with
  | [] =>
      match skip, matchHere ts [] with
      | O, Some _ => r
      | _, _ => []
      end
  | c :: s' =>
      match skip with
      | S k => replaceFrom ts r k s'
      | O =>
          match matchHere ts s with
          | Some (S n) => r ++ replaceFrom ts r n s'
          | Some O => r ++ c :: replaceFrom ts r 0 s'
          | None => c :: replaceFrom ts r 0 s'
          end
      end
  end.

Definition replaceAll (ts : list Term) (r : jsstr) (s : jsstr) : jsstr :=
  replaceFrom ts r 0 s.

(** A settled promise: fulfilled with a value or rejected with what was
    thrown. *)
Inductive outcome (E T : Type) : Type :=
  | Fulfilled (v : T)
  | Rejected (e : E).
Arguments Fulfilled {E T} v.
Arguments Rejected {E T} e.

(** [try { body } catch (error) { handler(error) }]. *)
Definition tryCatch {E T} (body : outcome E T) (handler : E → outcome E T)
  : outcome E T :=
  match body with
  | Fulfilled v => Fulfilled v
  | Rejected e => handler e
  end.

(** *** Numbers as lengths, positions and delays *)

(** An integer or an infinity, the result of ToIntegerOrInfinity. *)
Inductive integerOrInfinity : Set :=
  | NegInfinity
  | Integer (z : Z)
  | PosInfinity.

(** ToIntegerOrInfinity (ECMA-262, 7.1.5): [NaN] and the zeros give 0,
    a finite number is truncated towards zero. *)
Definition toIntegerOrInfinity (x : number) : integerOrInfinity :=
  match x with
  | S754_nan | S754_zero _ => Integer 0
  | S754_infinity neg => if neg then NegInfinity else PosInfinity
  | S754_finite neg m e =>
      let '(p, q) := ratio m e in
      let t := (Zpos p / Zpos q)%Z in
      Integer (if neg then - t else t)
  end.

(** [n <= x] for a length [n]: the comparison of the two values, false
    when [x] is [NaN]. *)
Definition lengthLe (n : nat) (x : number) : bool :=
  match x with
  | S754_nan => false
  | S754_zero _ => (n =? 0)%nat
  | S754_infinity neg => negb neg
  | S754_finite neg m e =>
      if neg then false
      else let '(p, q) := ratio m e in (N.of_nat n * Npos q <=? Npos p)%N
  end.

(** A relative position in a string of length [len], as [slice] reads
    it: counted from the end when negative, clamped to the string. *)
Definition relativeIndex (len : nat) (i : integerOrInfinity) : nat :=
  match i with
  | NegInfinity => 0
  | Integer z =>
      if (z <? 0)%Z then Z.to_nat (Z.max (Z.of_nat len + z) 0)
      else Z.to_nat (Z.min z (Z.of_nat len))
  | PosInfinity => len
  end.

(** [String.prototype.slice(start, end)] (ECMA-262, 22.1.3.23). *)
Definition slice (s : jsstr) (start end_ : number) : jsstr :=
  let from := relativeIndex (length s) (toIntegerOrInfinity start) in
  let to := relativeIndex (length s) (toIntegerOrInfinity end_) in
  take (to - from) (drop from s).

(** ToInt32 of an integer. *)
Definition toInt32 (z : Z) : Z := ((z + 2 ^ 31) mod 2 ^ 32 - 2 ^ 31)%Z.

End JS.

(** ** The shared types ([types/index.ts]) *)

Module Types.
Import JS.

(** [status: 'success' | 'error'] *)
Inductive ApiStatus : Set := success | error.

Record ApiResponse (T : Type) : Type := {
  status : ApiStatus;
  data : option T;
  message : option jsstr
}.
Arguments status {T} _.
Arguments data {T} _.
Arguments message {T} _.

Record ProductRecommendation : Type := {
  rank : number;
  product_name : jsstr;
  description : jsstr;
  source_link : jsstr;
  price : option jsstr;
  rating : option number;
  image_url : option jsstr;
  pros : option (list jsstr);
  cons : option (list jsstr);
  best_for : option jsstr
}.

Record SearchRequest : Type := { keyword : jsstr }.

Record SearchResponse : Type := {
  products : list ProductRecommendation;
  total_results : number;
  search_time : number;
  cached : bool
}.

(** A configuration entry as the client holds it. The type declares
    [group: 'api' | 'prompt' | 'ui' | 'cache'], but the union is there
    for the type checker only: at run time the field is the string
    that the reply carries. *)
Record Configuration : Type := {
  id : number;
  key : jsstr;
  value : jsstr;
  group : jsstr;
  updated_at : jsstr
}.


Record AdminLoginRequest : Type := { username : jsstr; password : jsstr }.

(** The constant field [status: 'success'] carries no information and is
    left out. *)
Record AdminLoginResponse : Type := { token : jsstr; expires_in : number }.

(** One item of [settings]: its [key] and [value], named apart from the
    fields of [Configuration]. *)
Record Setting : Type := { setting_key : jsstr; setting_value : jsstr }.

Record ConfigurationUpdate : Type := { settings : list Setting }.

Record SearchResult : Type := {
  title : jsstr;
  link : jsstr;
  snippet : jsstr;
  position : number;
  favicon : option jsstr;
  date : option jsstr
}.

End Types.

(** ** The formatting helpers ([lib/utils.ts]) *)

Module Utils.
Import JS.

(** [price?: string | number]; [None] is [undefined]. *)
Inductive Price : Type :=
  | PStr (s : jsstr)
  | PNum (x : number).

(** [!price]: [undefined], the empty string, [0], [-0] and [NaN]. *)
Definition falsy (price : option Price) : bool :=
  match price with
  | None => true
  | Some (PStr s) => negb (truthy s)
  | Some (PNum (S754_zero _)) | Some (PNum S754_nan) => true
  | Some (PNum _) => false
  end.

Definition isComma (c : N) : bool := (c =? 44)%N.
Definition isDot (c : N) : bool := (c =? 46)%N.
Definition isDigitOrComma (c : N) : bool := isDigit c || isComma c.

(** [/[\d,]+\.?\d*/] *)
Definition priceRegex : list Term :=
  [ {| accepts := isDigitOrComma; quantifier := OneOrMore |};
    {| accepts := isDot; quantifier := Optional |};
    {| accepts := isDigit; quantifier := ZeroOrMore |} ].

(** [/,/g] *)
Definition commaRegex : list Term :=
  [ {| accepts := isComma; quantifier := Once |} ].

(** '价格待定' *)
Definition placeholder : jsstr := [20215; 26684; 24453; 23450]%N.

(** '¥' (U+00A5) *)
Definition yen : jsstr := [165%N].

(** [export function formatPrice(price?: string | number): string] *)
Definition formatPrice (price : option Price) : jsstr :=
  if falsy price then placeholder
  else
    match price with
    | Some (PNum x) => yen ++ toFixed 2 x
    | Some (PStr s) =>
        match stringMatch priceRegex s with
        | Some priceMatch =>
            let numericPrice := parseFloat (replaceAll commaRegex [] priceMatch) in
            yen ++ toFixed 2 numericPrice
        | None => s
        end
    | None => placeholder
    end.

(** What [\.?\d*] matches at the start of [t]. *)
Definition pointAndDigits (t : jsstr) : jsstr :=
  match t with
  | c :: t' => if isDot c then c :: takeWhile isDigit t' else takeWhile isDigit t
  | [] => []
  end.

(** The first number in a string, as the pattern finds it: the integer
    digits of the first run of digits and commas (the commas dropped)
    and the digits after a decimal point that follows the run
    directly; nothing when the string has neither a digit nor a comma. *)
Definition firstNumber (s : jsstr) : option (jsstr * jsstr) :=
  match dropWhile (λ c, negb (isDigitOrComma c)) s with
  | [] => None
  | s1 =>
      let frac :=
        match dropWhile isDigitOrComma s1 with
        | c :: t => if isDot c then takeWhile isDigit t else []
        | [] => []
        end in
      Some (filter (λ c, isDigit c = true) (takeWhile isDigitOrComma s1), frac)
  end.

(** The number value of the decimal numeral [ip.fp]; [NaN] when it has
    no digit at all. *)
Definition decimalNumber (ip fp : jsstr) : number :=
  if truthy ip || truthy fp then
    roundDecimal false (digitsValue (ip ++ fp)) (- Z.of_nat (length fp))
  else S754_nan.

(** [t] is a numeral with exactly two decimal places, and read without
    its point it is [n]: it shows [n] hundredths. *)
Definition twoDecimals (n : N) (t : jsstr) : Prop :=
  ∃ ip d1 d2,
    t = ip ++ [46%N; d1; d2]
    ∧ ip ≠ []
    ∧ Forall (λ c, isDigit c = true) (ip ++ [d1; d2])
    ∧ digitsValue (ip ++ [d1; d2]) = n.

(** Zero, or a finite positive number below 10^21: the numbers that
    [toFixed] prints in fixed notation without a sign. *)
Definition fixedRange (x : number) : bool :=
  match x with
  | S754_zero _ => true
  | S754_finite false m e => negb (atLeast1e21 m e)
  | _ => false
  end.

(** A number in hundredths, rounded to the nearest integer, upwards
    from the middle. *)
Definition hundredths (x : number) : N :=
  match x with
  | S754_finite _ m e => scaledNearest 2 m e
  | _ => 0%N
  end.

(** '暂无评分' *)
Definition noRating : jsstr := [26242; 26080; 35780; 20998]%N.

(** ' ⭐': a space and U+2B50. *)
Definition star : jsstr := [32; 11088]%N.

(** [!rating]: [undefined], [0], [-0] and [NaN]. *)
Definition falsyNumber (x : option number) : bool :=
  match x with
  | None | Some (S754_zero _) | Some S754_nan => true
  | Some _ => false
  end.

(** [export function formatRating(rating?: number): string] *)
Definition formatRating (rating : option number) : jsstr :=
  if falsyNumber rating then noRating
  else
    match rating with
    | Some x => toFixed 1 x ++ star
    | None => noRating
    end.

(** [export function truncateText(text: string, maxLength: number): string] *)
Definition truncateText (text : jsstr) (maxLength : number) : jsstr :=
  if lengthLe (length text) maxLength then text
  else slice text (ofZ 0) maxLength ++ lit "...".

(** [t] is a numeral with exactly one decimal place, and read without
    its point it is [n]: it shows [n] tenths. *)
Definition oneDecimal (n : N) (t : jsstr) : Prop :=
  ∃ ip d,
    t = ip ++ [46%N; d]
    ∧ ip ≠ []
    ∧ Forall (λ c, isDigit c = true) (ip ++ [d])
    ∧ digitsValue (ip ++ [d]) = n.

End Utils.

(** ** The API client ([lib/api.ts]) *)

Module Api.
Import JS Types.

(** *** axios, as far as the client relies on it *)

(** [response.status] and [response.data]. *)
Record AxiosResponse (B : Type) : Type := { http_status : Z; body : B }.
Arguments http_status {B} _.
Arguments body {B} _.

(** An [AxiosError]: [error.response] is missing when no reply arrived;
    [error.message] is axios' own text. *)
Record AxiosError (B : Type) : Type := {
  response : option (AxiosResponse B);
  error_message : jsstr
}.
Arguments response {B} _.
Arguments error_message {B} _.

(** What a [catch] clause can receive: an [AxiosError], which carries the
    whole reply, or a plain [Error] that has a message only. *)
Inductive thrown (B : Type) : Type :=
  | AxiosErr (e : AxiosError B)
  | Error (msg : jsstr).
Arguments AxiosErr {B} e.
Arguments Error {B} msg.

(** [axios.isAxiosError(error)] *)
Definition isAxiosError {B} (e : thrown B) : bool :=
  match e with AxiosErr _ => true | Error _ => false end.

(** What the network did with one request: a reply with an HTTP status
    and a parsed body, no reply at all (connection refused, the 30 s
    timeout), or a failure that is not axios' (an [Error] raised while
    the request was prepared, the reply transformed, or the reply read:
    the [TypeError] of reading [response.data.status] when the reply
    has no body). *)
Inductive wire (B : Type) : Type :=
  | HttpReply (st : Z) (b : B)
  | NoReply (msg : jsstr)
  | Unexpected (msg : jsstr).
Arguments HttpReply {B} st b.
Arguments NoReply {B} msg.
Arguments Unexpected {B} msg.

(** axios' default [validateStatus]: a 2xx status fulfils the promise. *)
Definition validateStatus (st : Z) : bool := (200 <=? st)%Z && (st <? 300)%Z.

(** [settle]: a reply outside 2xx rejects with an [AxiosError] that holds
    the reply. *)
Definition settle {B} (w : wire B) : outcome (thrown B) (AxiosResponse B) :=
  match w with
  | HttpReply st b =>
      let r := {| http_status := st; body := b |} in
      if validateStatus st then Fulfilled r
      else Rejected (AxiosErr
             {| response := Some r;
                error_message :=
                  lit "Request failed with status code " ++ decimal (Z.to_N st) |})
  | NoReply msg => Rejected (AxiosErr {| response := None; error_message := msg |})
  | Unexpected msg => Rejected (Error msg)
  end.

Inductive Payload : Type :=
  | NoPayload
  | SearchPayload (r : SearchRequest)
  | LoginPayload (r : AdminLoginRequest)
  | UpdatePayload (r : ConfigurationUpdate).

(** The request as it leaves the client. Of the headers only
    [Authorization] varies ([Content-Type] is always
    [application/json]). *)
Record RequestConfig : Type := {
  method : jsstr;
  url : jsstr;
  Authorization : option jsstr;
  payload : Payload
}.

Definition post (u : string) (p : Payload) : RequestConfig :=
  {| method := lit "POST"; url := lit u; Authorization := None; payload := p |}.

Definition get (u : string) : RequestConfig :=
  {| method := lit "GET"; url := lit u; Authorization := None; payload := NoPayload |}.

(** *** [class ApiClient] *)

(** [private token: string | null = null] *)
Record ApiClient : Type := { token : option jsstr }.

Definition newApiClient : ApiClient := {| token := None |}.

(** The request interceptor: [if (this.token)] adds the bearer header. *)
Definition requestInterceptor (c : ApiClient) (config : RequestConfig)
  : RequestConfig :=
  match token c with
  | Some t =>
      if truthy t then
        {| method := method config; url := url config;
           Authorization := Some (lit "Bearer " ++ t);
           payload := payload config |}
      else config
  | None => config
  end.

(** [error.response?.status] *)
Definition responseStatus {B} (e : thrown B) : option Z :=
  match e with
  | AxiosErr err => http_status <$> response err
  | Error _ => None
  end.

(** The response interceptor's rejection handler: a 401 clears the
    token; the error is passed on either way. *)
Definition responseRejected {B} (c : ApiClient) (e : thrown B) : ApiClient :=
  match responseStatus e with
  | Some st => if (st =? 401)%Z then {| token := None |} else c
  | None => c
  end.

(** One request through [this.client]: the request interceptor, the
    network, the response interceptors. Returns the client afterwards,
    the request that was sent and the settled promise. *)
Definition request {B} (c : ApiClient) (config : RequestConfig) (w : wire B)
  : ApiClient * RequestConfig * outcome (thrown B) (AxiosResponse B) :=
  let sent := requestInterceptor c config in
  match settle w with
  | Fulfilled r => (c, sent, Fulfilled r)
  | Rejected e => (responseRejected c e, sent, Rejected e)
  end.

Definition setToken (t : jsstr) (c : ApiClient) : ApiClient :=
  {| token := Some t |}.

Definition clearToken (c : ApiClient) : ApiClient := {| token := None |}.

Definition logout (c : ApiClient) : ApiClient := clearToken c.

(** [error.response?.data?.message] *)
Definition responseMessage {T} (err : AxiosError (ApiResponse T)) : option jsstr :=
  r ← response err; message (body r).

(** The [catch] clause every method shares: an axios error becomes a
    plain [Error] whose text is the prefix followed by the reply's
    message or, without one, axios' message; anything else is thrown
    again as it is. *)
Definition rethrow {T R} (prefix : jsstr) (e : thrown (ApiResponse T))
  : outcome (thrown (ApiResponse T)) R :=
  match e with
  | AxiosErr err =>
      Rejected (Error (prefix ++ or_else (responseMessage err) (error_message err)))
  | Error _ => Rejected e
  end.

(** '获取推荐失败' *)
Definition msgGetTopFailed : jsstr :=
  [33719; 21462; 25512; 33616; 22833; 36133]%N.
(** '网络错误: ' *)
Definition msgNetworkError : jsstr :=
  [32593; 32476; 38169; 35823; 58; 32]%N.
(** '登录失败' *)
Definition msgLoginFailed : jsstr := [30331; 24405; 22833; 36133]%N.
(** '登录失败: ' *)
Definition msgLoginFailedPrefix : jsstr :=
  [30331; 24405; 22833; 36133; 58; 32]%N.
(** '获取配置失败' *)
Definition msgGetConfigFailed : jsstr :=
  [33719; 21462; 37197; 32622; 22833; 36133]%N.
(** '获取配置失败: ' *)
Definition msgGetConfigFailedPrefix : jsstr :=
  [33719; 21462; 37197; 32622; 22833; 36133; 58; 32]%N.
(** '更新配置失败' *)
Definition msgUpdateFailed : jsstr :=
  [26356; 26032; 37197; 32622; 22833; 36133]%N.
(** '更新配置失败: ' *)
Definition msgUpdateFailedPrefix : jsstr :=
  [26356; 26032; 37197; 32622; 22833; 36133; 58; 32]%N.

(** [if (response.data.status === 'success' && response.data.data)
      return response.data.data;
    throw new Error(response.data.message || fallback)] *)
Definition unwrap {T} (fallback : jsstr) (r : AxiosResponse (ApiResponse T))
  : outcome (thrown (ApiResponse T)) T :=
  match status (body r), data (body r) with
  | success, Some d => Fulfilled d
  | _, _ => Rejected (Error (or_else (message (body r)) fallback))
  end.

(** [async getTopProducts(request)] *)
Definition getTopProducts (c : ApiClient) (req : SearchRequest)
    (w : wire (ApiResponse SearchResponse))
  : ApiClient * RequestConfig
    * outcome (thrown (ApiResponse SearchResponse)) SearchResponse :=
  let '(c', sent, r) := request c (post "/api/get-top3" (SearchPayload req)) w in
  (c', sent,
   tryCatch
     match r with
     | Fulfilled response => unwrap msgGetTopFailed response
     | Rejected e => Rejected e
     end
     (rethrow msgNetworkError)).

(** [async adminLogin(request)]: a successful login stores the token
    through [setToken]. *)
Definition adminLogin (c : ApiClient) (req : AdminLoginRequest)
    (w : wire (ApiResponse AdminLoginResponse))
  : ApiClient * RequestConfig
    * outcome (thrown (ApiResponse AdminLoginResponse)) AdminLoginResponse :=
  let '(c', sent, r) := request c (post "/api/admin/login" (LoginPayload req)) w in
  match r with
  | Fulfilled response =>
      match unwrap msgLoginFailed response with
      | Fulfilled d => (setToken (Types.token d) c', sent, Fulfilled d)
      | Rejected e => (c', sent, rethrow msgLoginFailedPrefix e)
      end
  | Rejected e => (c', sent, rethrow msgLoginFailedPrefix e)
  end.

(** [async getConfigurations()] *)
Definition getConfigurations (c : ApiClient)
    (w : wire (ApiResponse (list Configuration)))
  : ApiClient * RequestConfig
    * outcome (thrown (ApiResponse (list Configuration))) (list Configuration) :=
  let '(c', sent, r) := request c (get "/api/admin/settings") w in
  (c', sent,
   tryCatch
     match r with
     | Fulfilled response => unwrap msgGetConfigFailed response
     | Rejected e => Rejected e
     end
     (rethrow msgGetConfigFailedPrefix)).

(** [async updateConfigurations(request)]: only the status is looked
    at. *)
Definition updateConfigurations (c : ApiClient) (req : ConfigurationUpdate)
    (w : wire (ApiResponse unit))
  : ApiClient * RequestConfig * outcome (thrown (ApiResponse unit)) unit :=
  let '(c', sent, r) := request c (post "/api/admin/settings" (UpdatePayload req)) w in
  (c', sent,
   tryCatch
     match r with
     | Fulfilled response =>
         match status (body response) with
         | success => Fulfilled tt
         | error =>
             Rejected (Error (or_else (message (body response)) msgUpdateFailed))
         end
     | Rejected e => Rejected e
     end
     (rethrow msgUpdateFailedPrefix)).

(** [async testConnection()] *)
Definition testConnection (c : ApiClient) (w : wire unit)
  : ApiClient * RequestConfig * bool :=
  let '(c', sent, r) := request c (get "/api/health") w in
  (c', sent, match r with Fulfilled _ => true | Rejected _ => false end).

(** The text of the [Error] that [getTopProducts] throws, read off the
    reply: its [message] field or a fixed text, behind the
    network-error prefix when axios rejected the request. The [data]
    field plays no part in it. *)
Definition failureText (w : wire (ApiResponse SearchResponse)) : jsstr :=
  match w with
  | HttpReply st b =>
      if validateStatus st then or_else (message b) msgGetTopFailed
      else msgNetworkError
           ++ or_else (message b)
                (lit "Request failed with status code " ++ decimal (Z.to_N st))
  | NoReply m => msgNetworkError ++ m
  | Unexpected m => m
  end.

(** The payload a reply delivers to the caller: the [data] of a 2xx
    reply whose [status] is ['success']. *)
Definition delivered {T} (w : wire (ApiResponse T)) : option T :=
  match settle w with
  | Fulfilled r =>
      match status (body r) with
      | success => data (body r)
      | error => None
      end
  | Rejected _ => None
  end.

End Api.

(** ** The search form and the page that hosts it
    ([components/search/search-form.tsx], [app/page.tsx]) *)

Module SearchForm.
Import JS Types Api.

Inductive Toast : Type :=
  | ToastError (msg : jsstr)
  | ToastSuccess (msg : jsstr).

(** The React state of [SearchForm] ([keyword], [isSubmitting]) and of
    [HomePage] ([searchResults], [isLoading], [hasSearched]), the
    singleton [apiClient], and what the user and the network have seen
    so far: the toasts shown, the errors logged and the requests sent,
    oldest first. *)
Record UI : Type := {
  keyword : jsstr;
  isSubmitting : bool;
  searchResults : option SearchResponse;
  isLoading : bool;
  hasSearched : bool;
  apiClient : ApiClient;
  toasts : list Toast;
  console : list (thrown (ApiResponse SearchResponse));
  sent : list RequestConfig
}.

Definition setIsSubmitting (b : bool) (u : UI) : UI :=
  {| keyword := keyword u; isSubmitting := b;
     searchResults := searchResults u; isLoading := isLoading u;
     hasSearched := hasSearched u; apiClient := apiClient u;
     toasts := toasts u; console := console u; sent := sent u |}.

(** [HomePage.handleLoadingChange], passed down as [onLoadingChange]. *)
Definition onLoadingChange (loading : bool) (u : UI) : UI :=
  {| keyword := keyword u; isSubmitting := isSubmitting u;
     searchResults := searchResults u; isLoading := loading;
     hasSearched := hasSearched u; apiClient := apiClient u;
     toasts := toasts u; console := console u; sent := sent u |}.

(** [HomePage.handleSearch], passed down as [onSearch]:
    [setSearchResults(results); setHasSearched(true)]. *)
Definition onSearch (results : SearchResponse) (u : UI) : UI :=
  {| keyword := keyword u; isSubmitting := isSubmitting u;
     searchResults := Some results; isLoading := isLoading u;
     hasSearched := true; apiClient := apiClient u;
     toasts := toasts u; console := console u; sent := sent u |}.

Definition toast (t : Toast) (u : UI) : UI :=
  {| keyword := keyword u; isSubmitting := isSubmitting u;
     searchResults := searchResults u; isLoading := isLoading u;
     hasSearched := hasSearched u; apiClient := apiClient u;
     toasts := toasts u ++ [t]; console := console u; sent := sent u |}.

Definition consoleError (e : thrown (ApiResponse SearchResponse)) (u : UI) : UI :=
  {| keyword := keyword u; isSubmitting := isSubmitting u;
     searchResults := searchResults u; isLoading := isLoading u;
     hasSearched := hasSearched u; apiClient := apiClient u;
     toasts := toasts u; console := console u ++ [e]; sent := sent u |}.

(** The effect of one call through [api] on the page: the client it
    leaves behind and the request that went out. *)
Definition called (c : ApiClient) (r : RequestConfig) (u : UI) : UI :=
  {| keyword := keyword u; isSubmitting := isSubmitting u;
     searchResults := searchResults u; isLoading := isLoading u;
     hasSearched := hasSearched u; apiClient := c;
     toasts := toasts u; console := console u; sent := sent u ++ [r] |}.

(** '请输入商品关键词' *)
Definition msgEnterKeyword : jsstr :=
  [35831; 36755; 20837; 21830; 21697; 20851; 38190; 35789]%N.
(** '已从缓存中获取推荐结果' *)
Definition msgFromCache : jsstr :=
  [24050; 20174; 32531; 23384; 20013; 33719; 21462; 25512; 33616; 32467;
   26524]%N.
(** '为您找到了最新的推荐商品！' *)
Definition msgFresh : jsstr :=
  [20026; 24744; 25214; 21040; 20102; 26368; 26032; 30340; 25512; 33616;
   21830; 21697; 65281]%N.

(** [error.message]; every value the client throws is an [Error], so the
    fallback text of [error instanceof Error ? error.message : ...] is
    never used. *)
Definition errorMessage {B} (e : thrown B) : jsstr :=
  match e with
  | AxiosErr err => error_message err
  | Error msg => msg
  end.

(** [const handleSubmit = async (e) => { ... }]; [w] is what the network
    does with the request, should one be sent. *)
Definition handleSubmit (w : wire (ApiResponse SearchResponse)) (u : UI) : UI :=
  if negb (truthy (trim (keyword u))) then
    toast (ToastError msgEnterKeyword) u
  else
    let u := setIsSubmitting true u in
    let u := onLoadingChange true u in
    let request := {| Types.keyword := trim (keyword u) |} in
    let '(c, r, results) := getTopProducts (apiClient u) request w in
    let u := called c r u in
    let u :=
      match results with
      | Fulfilled results =>
          let u := onSearch results u in
          if cached results then toast (ToastSuccess msgFromCache) u
          else toast (ToastSuccess msgFresh) u
      | Rejected e =>
          let u := consoleError e u in
          toast (ToastError (errorMessage e)) u
      end in
    let u := setIsSubmitting false u in
    onLoadingChange false u.

(** [handleInputChange] *)
Definition handleInputChange (v : jsstr) (u : UI) : UI :=
  {| keyword := v; isSubmitting := isSubmitting u;
     searchResults := searchResults u; isLoading := isLoading u;
     hasSearched := hasSearched u; apiClient := apiClient u;
     toasts := toasts u; console := console u; sent := sent u |}.

End SearchForm.

(** ** Client programs: sequences of calls on one [ApiClient] *)

Module Session.
Import JS Types Api.

(** One use of the exported [api] object (or of [apiClient] itself),
    with what the network does with the request it sends, if any. *)
Inductive Call : Type :=
  | GetTopProducts (req : SearchRequest) (w : wire (ApiResponse SearchResponse))
  | AdminLogin (req : AdminLoginRequest) (w : wire (ApiResponse AdminLoginResponse))
  | GetConfigurations (w : wire (ApiResponse (list Configuration)))
  | UpdateConfigurations (req : ConfigurationUpdate) (w : wire (ApiResponse unit))
  | TestConnection (w : wire unit)
  | SetToken (t : jsstr)
  | Logout.

(** The client after the call and the request the call sent. *)
Definition step (c : ApiClient) (k : Call) : ApiClient * option RequestConfig :=
  match k with
  | GetTopProducts req w =>
      let '(c', r, _) := getTopProducts c req w in (c', Some r)
  | AdminLogin req w =>
      let '(c', r, _) := adminLogin c req w in (c', Some r)
  | GetConfigurations w =>
      let '(c', r, _) := getConfigurations c w in (c', Some r)
  | UpdateConfigurations req w =>
      let '(c', r, _) := updateConfigurations c req w in (c', Some r)
  | TestConnection w =>
      let '(c', r, _) := testConnection c w in (c', Some r)
  | SetToken t => (setToken t c, None)
  | Logout => (logout c, None)
  end.

(** The client after a sequence of calls and the requests sent, oldest
    first. *)
Fixpoint run (c : ApiClient) (ks : list Call) : ApiClient * list RequestConfig :=
  match ks with
  | [] => (c, [])
  | k :: ks' =>
      let '(c', r) := step c k in
      let '(c'', rs) := run c' ks' in
      (c'', option_list r ++ rs)
  end.

(** The reply came with HTTP status 401. *)
Definition is401 {B} (w : wire B) : bool :=
  match w with
  | HttpReply st _ => (st =? 401)%Z
  | _ => false
  end.

Definition answered401 (k : Call) : bool :=
  match k with
  | GetTopProducts _ w => is401 w
  | AdminLogin _ w => is401 w
  | GetConfigurations w => is401 w
  | UpdateConfigurations _ w => is401 w
  | TestConnection w => is401 w
  | SetToken _ | Logout => false
  end.

(** The call reaches [setToken]: a direct call, or a login that
    succeeds. *)
Definition callsSetToken (k : Call) : bool :=
  match k with
  | SetToken _ => true
  | AdminLogin _ w =>
      match settle w with
      | Fulfilled r =>
          match status (body r), data (body r) with
          | success, Some _ => true
          | _, _ => false
          end
      | Rejected _ => false
      end
  | _ => false
  end.

(** The call leaves a stored token where it is: it is not answered 401,
    does not reach [setToken] and is not [logout]. *)
Definition keepsToken (k : Call) : bool :=
  negb (answered401 k) && negb (callsSetToken k)
  && match k with Logout => false | _ => true end.

(** The token a call hands to [setToken]: the argument of a direct
    call, or the token a login was answered with. *)
Definition offered (k : Call) : option jsstr :=
  match k with
  | SetToken t => Some t
  | AdminLogin _ w => Types.token <$> delivered w
  | _ => None
  end.

End Session.

(** ** The page as a visitor uses it
    ([components/search/search-form.tsx], [app/page.tsx]) *)

Module Page.
Import JS Types Api SearchForm.

(** [setKeyword], the setter of the form's [keyword] state. *)
Definition setKeyword (v : jsstr) (u : UI) : UI := handleInputChange v u.

(** [handleKeyDown]: the Enter key submits. *)
Definition handleKeyDown (key : jsstr) (w : wire (ApiResponse SearchResponse))
    (u : UI) : UI :=
  if bool_decide (key = lit "Enter") then handleSubmit w u else u.

(** The suggestions under the field: '无线耳机', '智能手机', '笔记本电脑',
    '咖啡机', '运动鞋'. *)
Definition suggestions : list jsstr :=
  [ [26080; 32447; 32819; 26426]; [26234; 33021; 25163; 26426];
    [31508; 35760; 26412; 30005; 33041]; [21654; 21857; 26426];
    [36816; 21160; 38795] ]%N.

(** [onNewSearch], as [HomePage] passes it to [ProductResults]:
    [setHasSearched(false); setSearchResults(null)]. *)
Definition onNewSearch (u : UI) : UI :=
  {| keyword := keyword u; isSubmitting := isSubmitting u;
     searchResults := None; isLoading := isLoading u;
     hasSearched := false; apiClient := apiClient u;
     toasts := toasts u; console := console u; sent := sent u |}.

(** What [HomePage] renders: the hero section under
    [!hasSearched && !isLoading], the spinner under [isLoading], the
    results under [!isLoading && searchResults]. *)
Definition heroShown (u : UI) : bool := negb (hasSearched u) && negb (isLoading u).
Definition spinnerShown (u : UI) : bool := isLoading u.
Definition resultsShown (u : UI) : bool :=
  negb (isLoading u) && bool_decide (is_Some (searchResults u)).

(** [disabled={isSubmitting || !keyword.trim()}] on the submit button. *)
Definition submitDisabled (u : UI) : bool :=
  isSubmitting u || negb (truthy (trim (keyword u))).

(** The page as it is first rendered. *)
Definition initial : UI :=
  {| keyword := []; isSubmitting := false; searchResults := None;
     isLoading := false; hasSearched := false; apiClient := newApiClient;
     toasts := []; console := []; sent := [] |}.

(** What a visitor can do; a submission comes with what the network
    does with its request. *)
Inductive Action : Type :=
  | Input (v : jsstr)
  | KeyDown (key : jsstr) (w : wire (ApiResponse SearchResponse))
  | ClickSubmit (w : wire (ApiResponse SearchResponse))
  | ClickSuggestion (i : nat)
  | ClickNewSearch.

(** One action on the page. A disabled control does nothing, and the
    buttons of [ProductResults] exist only while the results are
    shown. *)
Definition act (u : UI) (a : Action) : UI :=
  match a with
  | Input v => if isSubmitting u then u else handleInputChange v u
  | KeyDown key w => if isSubmitting u then u else handleKeyDown key w u
  | ClickSubmit w => if submitDisabled u then u else handleSubmit w u
  | ClickSuggestion i =>
      if isSubmitting u then u
      else match suggestions !! i with
           | Some s => setKeyword s u
           | None => u
           end
  | ClickNewSearch => if resultsShown u then onNewSearch u else u
  end.

Definition visit (u : UI) (actions : list Action) : UI := fold_left act actions u.

(** The replies the network gave during a visit. *)
Definition replies (actions : list Action)
  : list (wire (ApiResponse SearchResponse)) :=
  omap (λ a, match a with
             | KeyDown _ w | ClickSubmit w => Some w
             | _ => None
             end) actions.

(** A request as the search form sends it: a POST to [/api/get-top3]
    without credentials, with a keyword that is not empty and has no
    blank margin. *)
Definition searchRequest (r : RequestConfig) : Prop :=
  method r = lit "POST" ∧ url r = lit "/api/get-top3"
  ∧ Authorization r = None
  ∧ ∃ kw, payload r = SearchPayload {| Types.keyword := kw |}
          ∧ kw ≠ [] ∧ trim kw = kw.

(** The page between two actions: nothing is loading, and there are
    results exactly when a search has been made. *)
Definition settled (u : UI) : Prop :=
  isLoading u = false ∧ isSubmitting u = false
  ∧ (hasSearched u = true ↔ is_Some (searchResults u)).

(** A visitor who is not logged in stays so, and sends search requests
    only. *)
Definition anonymous (u : UI) : Prop :=
  token (apiClient u) = None ∧ Forall searchRequest (sent u).

End Page.

(** ** Timers ([setTimeout], [clearTimeout]) *)

Module Timers.
Import JS.

(** The delay [setTimeout(handler, timeout)] asks for, in milliseconds
    (HTML, timers): [timeout] is read as a 32-bit integer, and a
    negative one counts as 0. *)
Definition timerDelay (timeout : number) : Z :=
  match toIntegerOrInfinity timeout with
  | Integer z => Z.max 0 (toInt32 z)
  | NegInfinity | PosInfinity => 0
  end.

(** The host's timers: the time, the next handle, and for each pending
    timer the time it is due and its callback. *)
Record Host (C : Type) : Type := {
  clock : Z;
  nextHandle : nat;
  timers : gmap nat (Z * C)
}.
Arguments clock {C} _.
Arguments nextHandle {C} _.
Arguments timers {C} _.

Definition newHost {C} : Host C :=
  {| clock := 0; nextHandle := 1; timers := ∅ |}.

(** [setTimeout(callback, timeout)]: a fresh handle. *)
Definition setTimeout {C} (callback : C) (timeout : number) (h : Host C)
  : nat * Host C :=
  (nextHandle h,
   {| clock := clock h; nextHandle := S (nextHandle h);
      timers := <[nextHandle h := ((clock h + timerDelay timeout)%Z, callback)]>
                  (timers h) |}).

(** [clearTimeout(handle)]; nothing happens for [undefined] or for a
    handle that is not pending. *)
Definition clearTimeout {C} (handle : option nat) (h : Host C) : Host C :=
  match handle with
  | Some i =>
      {| clock := clock h; nextHandle := nextHandle h;
         timers := delete i (timers h) |}
  | None => h
  end.

(** Time passes. *)
Definition elapse {C} (ms : N) (h : Host C) : Host C :=
  {| clock := (clock h + Z.of_N ms)%Z; nextHandle := nextHandle h;
     timers := timers h |}.

(** The host runs a timer: one that is pending and due. The callback
    and the host without the timer. *)
Definition expire {C} (handle : nat) (h : Host C) : option (C * Host C) :=
  match timers h !! handle with
  | Some (due, callback) =>
      if (due <=? clock h)%Z then
        Some (callback,
              {| clock := clock h; nextHandle := nextHandle h;
                 timers := delete handle (timers h) |})
      else None
  | None => None
  end.

End Timers.

(** ** [debounce] ([lib/utils.ts]) *)

Module Debounce.
Import JS Timers.

Section Closure.
Context {A : Type}.

(** The closure of one debounced function: its variable [timeout], the
    host's timers (a timer's callback is [() => func(...args)], given by
    its [args]), and the calls of [func] so far. *)
Record Debounced : Type := {
  timeout : option nat;
  host : Host A;
  invoked : list A
}.

(** [debounce(func, wait)] before its first call. *)
Definition debounce : Debounced :=
  {| timeout := None; host := newHost; invoked := [] |}.

Inductive Event : Type :=
  | Call (args : A)
  | Wait (ms : N)
  | Expire (handle : nat).

(** One event: a call of the debounced function
    ([clearTimeout(timeout); timeout = setTimeout(...)]), time passing,
    or the host running a timer that is due. *)
Definition step (wait : number) (s : Debounced) (ev : Event) : option Debounced :=
  match ev with
  | Call args =>
      let '(handle, h) := setTimeout args wait (clearTimeout (timeout s) (host s)) in
      Some {| timeout := Some handle; host := h; invoked := invoked s |}
  | Wait ms =>
      Some {| timeout := timeout s; host := elapse ms (host s);
              invoked := invoked s |}
  | Expire handle =>
      '(args, h) ← expire handle (host s);
      Some {| timeout := timeout s; host := h; invoked := invoked s ++ [args] |}
  end.

Fixpoint run (wait : number) (s : Debounced) (evs : list Event) : option Debounced :=
  match evs with
  | [] => Some s
  | ev :: evs' => s' ← step wait s ev; run wait s' evs'
  end.

Definition isCall (ev : Event) : bool :=
  match ev with Call _ => true | _ => false end.

(** The arguments of the calls, in order. *)
Definition callArgs (evs : list Event) : list A :=
  omap (λ ev, match ev with Call args => Some args | _ => None end) evs.

(** The time that passes during the events. *)
Definition elapsed (evs : list Event) : Z :=
  foldr (λ ev t, match ev with Wait ms => (Z.of_N ms + t)%Z | _ => t end) 0%Z evs.

(** What is pending after [evs]: nothing, or one timer, set by the
    last call, with that call's arguments. *)
Definition pendingAfter (wait : number) (evs : list Event) (s : Debounced) : Prop :=
  (timers (host s) = ∅ ∧ invoked s `sublist_of` callArgs evs)
  ∨ ∃ handle args before since,
      timeout s = Some handle
      ∧ timers (host s)
        = {[ handle := ((clock (host s) - elapsed since + timerDelay wait)%Z, args) ]}
      ∧ evs = before ++ Call args :: since
      ∧ Forall (λ ev, isCall ev = false) since
      ∧ invoked s `sublist_of` callArgs before.

End Closure.
Arguments Debounced A : clear implicits.
Arguments Event A : clear implicits.
End Debounce.

(** ** [throttle] ([lib/utils.ts]) *)

Module Throttle.
Import JS Timers.

Section Closure.
Context {A : Type}.

(** The closure of one throttled function: its variable [inThrottle]
    ([undefined], hence falsy, at first), the host's timers (every
    callback is [() => (inThrottle = false)]), and the calls of [func]
    so far. *)
Record Throttled : Type := {
  inThrottle : bool;
  host : Host unit;
  invoked : list A
}.

(** [throttle(func, limit)] before its first call. *)
Definition throttle : Throttled :=
  {| inThrottle := false; host := newHost; invoked := [] |}.

(** A call comes with whether [func] returns for it or throws. *)
Inductive Event : Type :=
  | Call (args : A) (returns : bool)
  | Wait (ms : N)
  | Expire (handle : nat).

(** One event. A call while [inThrottle] does nothing; otherwise
    [func(...args)] runs first, and only when it returns is
    [inThrottle] set and the timer started. *)
Definition step (limit : number) (s : Throttled) (ev : Event) : option Throttled :=
  match ev with
  | Call args returns =>
      if inThrottle s then Some s
      else if returns then
        let '(_, h) := setTimeout tt limit (host s) in
        Some {| inThrottle := true; host := h; invoked := invoked s ++ [args] |}
      else
        Some {| inThrottle := inThrottle s; host := host s;
                invoked := invoked s ++ [args] |}
  | Wait ms =>
      Some {| inThrottle := inThrottle s; host := elapse ms (host s);
              invoked := invoked s |}
  | Expire handle =>
      '(_, h) ← expire handle (host s);
      Some {| inThrottle := false; host := h; invoked := invoked s |}
  end.

Fixpoint run (limit : number) (s : Throttled) (evs : list Event) : option Throttled :=
  match evs with
  | [] => Some s
  | ev :: evs' => s' ← step limit s ev; run limit s' evs'
  end.

(** The arguments of the calls, in order. *)
Definition callArgs (evs : list Event) : list A :=
  omap (λ ev, match ev with Call args _ => Some args | _ => None end) evs.

(** The time that passes during the events. *)
Definition elapsed (evs : list Event) : Z :=
  foldr (λ ev t, match ev with Wait ms => (Z.of_N ms + t)%Z | _ => t end) 0%Z evs.

(** [inThrottle] is set exactly while the timer that resets it is
    pending, and no other timer ever is. *)
Definition armed (s : Throttled) : Prop :=
  if inThrottle s then ∃ handle due, timers (host s) = {[ handle := (due, tt) ]}
  else timers (host s) = ∅.

End Closure.
Arguments Throttled A : clear implicits.
Arguments Event A : clear implicits.
End Throttle.

(** ** [storage] ([lib/utils.ts]) *)

Module Storage.
Import JS.

(** The values JSON text denotes. *)
#[warnings="-register-all"] Inductive json : Type :=
  | JNull
  | JBool (b : bool)
  | JNumber (x : number)
  | JString (s : jsstr)
  | JArray (items : list json)
  | JObject (members : list (jsstr * json)).

(** Truthiness of such a value: [null], [false], [0], [-0], [NaN] and
    the empty string are falsy. *)
Definition truthyValue (v : json) : bool :=
  match v with
  | JNull => false
  | JBool b => b
  | JNumber (S754_zero _) | JNumber S754_nan => false
  | JNumber _ => true
  | JString s => truthy s
  | JArray _ | JObject _ => true
  end.

(** Where the code runs: on the server, where [window] is undefined, or
    in a browser with the items of [window.localStorage]. *)
Inductive Window : Type :=
  | NoWindow
  | Browser (localStorage : gmap jsstr jsstr).

(** [defaultValue || null] *)
Definition orNull (defaultValue : option json) : json :=
  match defaultValue with
  | Some d => if truthyValue d then d else JNull
  | None => JNull
  end.

Section Functions.
(** [JSON.parse]; [None] when it throws. *)
Variable parse : jsstr → option json.
(** [JSON.stringify] on a value JSON can express. *)
Variable stringify : json → jsstr.
(** Whether the browser takes the new item; [setItem] throws when the
    quota is exceeded. *)
Variable accepts : gmap jsstr jsstr → jsstr → jsstr → bool.

(** [storage.get(key, defaultValue)] *)
Definition get (key : jsstr) (defaultValue : option json) (w : Window) : json :=
  match w with
  | NoWindow => JNull
  | Browser items =>
      match items !! key with
      | Some item =>
          if truthy item then
            match parse item with
            | Some v => v
            | None => orNull defaultValue
            end
          else orNull defaultValue
      | None => orNull defaultValue
      end
  end.

(** [storage.set(key, value)] *)
Definition set (key : jsstr) (value : json) (w : Window) : Window :=
  match w with
  | NoWindow => NoWindow
  | Browser items =>
      if accepts items key (stringify value)
      then Browser (<[key := stringify value]> items)
      else w
  end.

(** [storage.remove(key)] *)
Definition remove (key : jsstr) (w : Window) : Window :=
  match w with
  | NoWindow => NoWindow
  | Browser items => Browser (delete key items)
  end.

End Functions.
End Storage.

(** ** [copyToClipboard] ([lib/utils.ts]) and [handleVisitLink]
    ([components/search/product-results.tsx]) *)

Module Clipboard.
Import JS Timers SearchForm.

(** A child of [document.body]. *)
Inductive Node : Type :=
  | Textarea (value : jsstr)
  | Element (tag : jsstr).

(** The browser tab, as far as copying a link and opening it go:
    whether [navigator.clipboard.writeText] succeeds (it rejects
    without permission and is missing outside a secure context), what
    [document.execCommand('copy')] does (it returns whether it copied,
    or throws: [None]), the clipboard, the children of [document.body],
    the toasts shown, the timers (a timer's callback opens its URL) and
    the URLs opened with [window.open]. *)
Record Tab : Type := {
  writeTextWorks : bool;
  execCommand : option bool;
  clipboard : jsstr;
  body : list Node;
  toasts : list Toast;
  host : Host jsstr;
  opened : list jsstr
}.

Definition setClipboard (text : jsstr) (t : Tab) : Tab :=
  {| writeTextWorks := writeTextWorks t; execCommand := execCommand t;
     clipboard := text; body := body t; toasts := toasts t;
     host := host t; opened := opened t |}.

Definition setBody (children : list Node) (t : Tab) : Tab :=
  {| writeTextWorks := writeTextWorks t; execCommand := execCommand t;
     clipboard := clipboard t; body := children; toasts := toasts t;
     host := host t; opened := opened t |}.

(** [document.body.appendChild(node)] *)
Definition appendChild (node : Node) (t : Tab) : Tab :=
  setBody (body t ++ [node]) t.

(** [document.body.removeChild(node)] for the node appended last. *)
Definition removeChild (t : Tab) : Tab := setBody (removelast (body t)) t.

(** [export async function copyToClipboard(text)]: the tab afterwards
    and the settled promise. *)
Definition copyToClipboard (text : jsstr) (t : Tab) : Tab * outcome unit bool :=
  if writeTextWorks t then (setClipboard text t, Fulfilled true)
  else
    let t := appendChild (Textarea text) t in
    match execCommand t with
    | Some copied =>
        let t := if copied then setClipboard text t else t in
        (removeChild t, Fulfilled true)
    | None => (removeChild t, Fulfilled false)
    end.

(** '链接已复制到剪贴板，正在打开...' *)
Definition msgCopied : jsstr :=
  [38142; 25509; 24050; 22797; 21046; 21040; 21098; 36148; 26495; 65292;
   27491; 22312; 25171; 24320; 46; 46; 46]%N.

Definition showToast (x : Toast) (t : Tab) : Tab :=
  {| writeTextWorks := writeTextWorks t; execCommand := execCommand t;
     clipboard := clipboard t; body := body t; toasts := toasts t ++ [x];
     host := host t; opened := opened t |}.

(** [window.open(url, '_blank', 'noopener,noreferrer')] *)
Definition windowOpen (url : jsstr) (t : Tab) : Tab :=
  {| writeTextWorks := writeTextWorks t; execCommand := execCommand t;
     clipboard := clipboard t; body := body t; toasts := toasts t;
     host := host t; opened := opened t ++ [url] |}.

Definition setHost (h : Host jsstr) (t : Tab) : Tab :=
  {| writeTextWorks := writeTextWorks t; execCommand := execCommand t;
     clipboard := clipboard t; body := body t; toasts := toasts t;
     host := h; opened := opened t |}.

(** [const handleVisitLink = async (url: string) => { ... }] *)
Definition handleVisitLink (url : jsstr) (t : Tab) : Tab :=
  let '(t, copied) := copyToClipboard url t in
  match copied with
  | Fulfilled _ =>
      let t := showToast (ToastSuccess msgCopied) t in
      let '(_, h) := setTimeout url (ofZ 500) (host t) in
      setHost h t
  | Rejected _ => windowOpen url t
  end.

(** The host runs a timer of the tab: the URL is opened. *)
Definition runTimer (handle : nat) (t : Tab) : option Tab :=
  '(url, h) ← expire handle (host t); Some (windowOpen url (setHost h t)).

End Clipboard.

(** ** The recommendation pipeline

    The pipeline itself (key derivation, the model extractor, the result
    cache and the orchestrator) is not among the TypeScript sources; the
    front end only declares the types of what it exchanges. The
    definitions below follow the specification. *)

Module Pipeline.
Import JS Types.

(** Modelled from the spec: the characters that count as whitespace when
    a keyword is normalised (4.4, "trim ... collapse internal
    whitespace"); they are taken to be the ones [trim] strips. *)
Definition blank (s : jsstr) : Prop := Forall (λ c, isWhiteSpace c = true) s.

(** Modelled from the spec: "collapse internal whitespace" (4.4): every
    maximal run of whitespace becomes one space. [inRun] tells whether
    the previous character was whitespace. *)
Fixpoint collapseFrom (inRun : bool) (s : jsstr) : jsstr :=
  match s with
  | [] => []
  | c :: s' =>
      if isWhiteSpace c then
        if inRun then collapseFrom true s' else 32%N :: collapseFrom true s'
      else c :: collapseFrom false s'
  end.

(** Modelled from the spec: "collapse internal whitespace" (4.4),
    started outside a run. *)
Definition collapse (s : jsstr) : jsstr := collapseFrom false s.

(** Modelled from the spec: what the language-model provider answers to
    one [generateStructured(prompt, schema)] call (4.3): a structured
    result, output that cannot be parsed, quota exhaustion or a network
    error. *)
Inductive Generated : Type :=
  | Structured (ps : list ProductRecommendation)
  | Unparseable
  | Quota
  | Network.

(** Modelled from the spec: the reasons of [ExtractionFailed] (4.3, 7). *)
Inductive ExtractionFailed : Set :=
  | MalformedOutput
  | ValidationFailed
  | QuotaExceeded
  | NetworkError.

(** Modelled from the spec: the search client's failure classes (4.2). *)
Inductive SearchFailure : Set := Timeout | RateLimited | AuthFailed | ProviderError.

(** Modelled from the spec: the error taxonomy as far as the orchestrator
    produces it (7). *)
Inductive PipelineError : Type :=
  | InvalidKeyword
  | UpstreamSearchError (e : SearchFailure)
  | ExtractionFailedWith (e : ExtractionFailed).

(** Modelled from the spec: a [CacheEntry] (3); its key is the key of
    the map that holds it. *)
Record CacheEntry : Type := { entry_value : SearchResponse; expires_at : Z }.

(** Modelled from the spec: the default query TTL in seconds (4.4). *)
Definition defaultQueryTtl : Z := 21600.

(** Modelled from the spec: the copy of a response that differs in the
    [cached] flag only (3, 8: "identical to the one originally computed,
    with cached = true"). *)
Definition setCached (b : bool) (r : SearchResponse) : SearchResponse :=
  {| products := products r; total_results := total_results r;
     search_time := search_time r; cached := b |}.

(** Modelled from the spec: a rank is compared with 1, 2 and 3 (4.3) the
    way numbers are compared for equality. *)
Definition strictEquals (x y : number) : bool := SFeqb x y.

Section Model.

(** The parts the specification names without fixing them: the
    case-folding of one code unit, the hash, the longest keyword
    accepted, the prompt built from the keyword, the results and the
    template, and the stricter instruction appended for the repair
    attempt. *)
Variable caseFold : N → N.
Variable hash : jsstr → jsstr.
Variable maxKeywordLength : nat.
Variable buildPrompt : jsstr → list SearchResult → jsstr → jsstr.
Variable stricter : jsstr.

(** Modelled from the spec: "normalize the keyword (trim, case-fold,
    collapse internal whitespace)" (4.4). *)
Definition normalize (kw : jsstr) : jsstr :=
  collapse (map caseFold (trim kw)).

(** Modelled from the spec: "normalize the keyword ... and hash it"
    (4.4). *)
Definition cacheKey (kw : jsstr) : jsstr := hash (normalize kw).

(** Modelled from the spec: validation (b), "ranks are the set {1,2,3}"
    (4.3): some entry has rank [k]. *)
Definition hasRank (k : Z) (ps : list ProductRecommendation) : bool :=
  existsb (λ p, strictEquals (rank p) (ofZ k)) ps.

(** Modelled from the spec: validation (c), "every source_link matches a
    supplied result's link" (4.3), for one entry. *)
Definition fromResults (results : list SearchResult) (p : ProductRecommendation)
  : bool :=
  bool_decide (source_link p ∈ map link results).

(** Modelled from the spec: "validation after generation: (a) exactly
    three entries, (b) ranks are the set {1,2,3}, (c) every source_link
    matches a supplied result's link" (4.3). *)
Definition validate (results : list SearchResult)
    (ps : list ProductRecommendation) : bool :=
  (length ps =? 3)%nat
  && (hasRank 1 ps && hasRank 2 ps && hasRank 3 ps)
  && forallb (fromResults results) ps.

(** Modelled from the spec: the repair attempt, "with a stricter
    instruction appended to the prompt; a second failure surfaces
    ExtractionFailed" (4.3). *)
Definition repair (generateStructured : jsstr → Generated)
    (results : list SearchResult) (prompt : jsstr)
  : ExtractionFailed + list ProductRecommendation :=
  match generateStructured (prompt ++ stricter) with
  | Structured ps =>
      if validate results ps then inr ps else inl ValidationFailed
  | Unparseable => inl MalformedOutput
  | Quota => inl QuotaExceeded
  | Network => inl NetworkError
  end.

(** Modelled from the spec: [extract(keyword, results, promptTemplate,
    providerConfig)] (4.3): generate, validate, repair once when the
    output is malformed or does not validate; quota and network errors
    propagate at once. *)
Definition extract (generateStructured : jsstr → Generated)
    (kw : jsstr) (results : list SearchResult) (promptTemplate : jsstr)
  : ExtractionFailed + list ProductRecommendation :=
  let prompt := buildPrompt kw results promptTemplate in
  match generateStructured prompt with
  | Structured ps =>
      if validate results ps then inr ps
      else repair generateStructured results prompt
  | Unparseable => repair generateStructured results prompt
  | Quota => inl QuotaExceeded
  | Network => inl NetworkError
  end.

(** Modelled from the spec: [get(key) -> response or absent] of the
    result cache (4.4); an entry past [expires_at] is absent (3). *)
Definition cacheGet (now : Z) (k : jsstr) (m : gmap jsstr CacheEntry)
  : option SearchResponse :=
  e ← m !! k;
  if (now <? expires_at e)%Z then Some (entry_value e) else None.

(** Modelled from the spec: [put(key, response, ttl)] of the result
    cache (4.4). *)
Definition cachePut (now ttl : Z) (k : jsstr) (r : SearchResponse)
    (m : gmap jsstr CacheEntry) : gmap jsstr CacheEntry :=
  <[k := {| entry_value := r; expires_at := (now + ttl)%Z |}]> m.

(** Modelled from the spec: one keyword submission as the orchestrator
    sees it (4.5): the keyword, the time it arrives, the query TTL the
    configuration holds (if any), whether the cache can be reached (7,
    [CacheUnavailable]), what the search client and the model provider
    answer should they be called, the prompt template, and the time the
    computation takes. *)
Record Submission : Type := {
  sub_keyword : jsstr;
  now : Z;
  configuredTtl : option Z;
  cacheAvailable : bool;
  searchAnswer : SearchFailure + list SearchResult;
  generateStructured : jsstr → Generated;
  promptTemplate : jsstr;
  elapsed : number
}.

(** Modelled from the spec: the query TTL, the configured one or the
    default (4.4). *)
Definition queryTtl (s : Submission) : Z :=
  default defaultQueryTtl (configuredTtl s).

(** Modelled from the spec: the computation behind a cache miss (4.5):
    SEARCH, EXTRACT, VALIDATE, and the response built from them. *)
Definition compute (s : Submission) : PipelineError + SearchResponse :=
  match searchAnswer s with
  | inl e => inl (UpstreamSearchError e)
  | inr results =>
      match extract (generateStructured s) (sub_keyword s) results
              (promptTemplate s) with
      | inl e => inl (ExtractionFailedWith e)
      | inr ps =>
          inr {| products := ps;
                 total_results := ofZ (Z.of_nat (length results));
                 search_time := elapsed s;
                 cached := false |}
      end
  end.

(** Modelled from the spec: [InvalidKeyword], "empty/oversized input,
    rejected before any external call" (7), judged on the normalised
    keyword. *)
Definition invalidKeyword (kw : jsstr) : bool :=
  bool_decide (kw = []) || (maxKeywordLength <? length kw)%nat.

(** Modelled from the spec: the orchestrator's state machine for one
    request (4.5): CACHE_LOOKUP, then DONE on a hit, or the computation
    and CACHE_STORE on a miss; a failed computation is not cached (4.4);
    without a reachable cache the result is computed and not stored
    (7). *)
Definition handle (s : Submission) (m : gmap jsstr CacheEntry)
  : gmap jsstr CacheEntry * (PipelineError + SearchResponse) :=
  if invalidKeyword (normalize (sub_keyword s)) then
    (m, inl InvalidKeyword)
  else
    let k := cacheKey (sub_keyword s) in
    match (if cacheAvailable s then cacheGet (now s) k m else None) with
    | Some r => (m, inr (setCached true r))
    | None =>
        match compute s with
        | inl e => (m, inl e)
        | inr r =>
            (if cacheAvailable s then cachePut (now s) (queryTtl s) k r m else m,
             inr r)
        end
    end.

(** Modelled from the spec: what happens to the cache over time: a
    submission is handled, or an entry is invalidated explicitly (3). *)
Inductive Event : Type :=
  | Submit (s : Submission)
  | Invalidate (k : jsstr).

(** Modelled from the spec: what an event left behind: the response or
    the error the caller of a submission received (6), or the
    invalidation. *)
Inductive Done : Type :=
  | Answered (s : Submission) (r : PipelineError + SearchResponse)
  | Invalidated (k : jsstr).

(** Modelled from the spec: one event on the cache; requests are handled
    one after the other (coalescing of concurrent requests, 4.4, is not
    part of this model). *)
Definition step (m : gmap jsstr CacheEntry) (ev : Event)
  : gmap jsstr CacheEntry * Done :=
  match ev with
  | Submit s => let '(m', r) := handle s m in (m', Answered s r)
  | Invalidate k => (delete k m, Invalidated k)
  end.

(** Modelled from the spec: the cache and the history after a sequence
    of events, oldest first. *)
Fixpoint run (m : gmap jsstr CacheEntry) (h : list Done) (evs : list Event)
  : gmap jsstr CacheEntry * list Done :=
  match evs with
  | [] => (m, h)
  | ev :: evs' => let '(m', d) := step m ev in run m' (h ++ [d]) evs'
  end.

(** The event stored a new response under key [k] or invalidated the
    key. *)
Definition touches (k : jsstr) (d : Done) : Prop :=
  match d with
  | Answered s (inr r) =>
      cacheKey (sub_keyword s) = k ∧ cached r = false ∧ cacheAvailable s = true
  | Answered _ (inl _) => False
  | Invalidated k' => k' = k
  end.

(** Entry [i] of the history is the computation that a response [r] to
    submission [s], answered at position [j], was served from: an earlier
    submission with the same key whose freshly computed response is [r]
    but for the flag, still within its time to live when [s] arrived,
    and not recomputed or invalidated in between. *)
Definition servedFrom (h : list Done) (i j : nat) (s : Submission)
    (r : SearchResponse) : Prop :=
  ∃ s0 r0,
    (i < j)%nat
    ∧ h !! i = Some (Answered s0 (inr r0))
    ∧ cacheKey (sub_keyword s0) = cacheKey (sub_keyword s)
    ∧ cached r0 = false
    ∧ cacheAvailable s0 = true
    ∧ r = setCached true r0
    ∧ (now s < now s0 + queryTtl s0)%Z
    ∧ (∀ i' d, (i < i' < j)%nat → h !! i' = Some d →
               ¬ touches (cacheKey (sub_keyword s)) d).

(** Every cache entry is the response of an earlier submission with
    that key, and nothing touched the key since. *)
Definition cacheBacked (m : gmap jsstr CacheEntry) (h : list Done) : Prop :=
  ∀ k e, m !! k = Some e →
    ∃ i s,
      h !! i = Some (Answered s (inr (entry_value e)))
      ∧ cacheKey (sub_keyword s) = k
      ∧ cached (entry_value e) = false
      ∧ cacheAvailable s = true
      ∧ expires_at e = (now s + queryTtl s)%Z
      ∧ (∀ i' d, (i < i')%nat → h !! i' = Some d → ¬ touches k d).

(** Every response served from the cache so far has the computation it
    came from in the history. *)
Definition hitsBacked (h : list Done) : Prop :=
  ∀ j s r, h !! j = Some (Answered s (inr r)) → cached r = true →
    ∃ i, servedFrom h i j s r.

(** Keywords that differ only in leading or trailing whitespace or in
    letter case: a core between blank margins, the two cores equal once
    case-folded. *)
Definition sameKeyword (a b : jsstr) : Prop :=
  ∃ la ca ra lb cb rb,
    a = la ++ ca ++ ra ∧ b = lb ++ cb ++ rb
    ∧ blank la ∧ blank ra ∧ blank lb ∧ blank rb
    ∧ map caseFold ca = map caseFold cb.

End Model.

(** Case folding of the ASCII letters, one instance of [caseFold]. *)
Definition asciiLower (c : N) : N :=
  if ((65 <=? c) && (c <=? 90))%N then (c + 32)%N else c.

End Pipeline.

(** ** Sample data *)

Module Samples.
Import JS Types Api Session SearchForm Utils Pipeline.

Definition product (k : Z) (name link : string) : ProductRecommendation :=
  {| rank := ofZ k; product_name := lit name; description := [];
     source_link := lit link; price := None; rating := None;
     image_url := None; pros := None; cons := None; best_for := None |}.

Definition result (k : Z) (name url : string) : SearchResult :=
  {| title := lit name; link := lit url; snippet := [];
     position := ofZ k; favicon := None; date := None |}.

Definition earbuds : list SearchResult :=
  [ result 1 "Alpha buds" "https://a.example/alpha";
    result 2 "Beta buds" "https://b.example/beta";
    result 3 "Gamma buds" "https://c.example/gamma";
    result 4 "Delta buds" "https://d.example/delta" ].

(** Three recommendations drawn from [earbuds]. *)
Definition top3 : list ProductRecommendation :=
  [ product 1 "Alpha buds" "https://a.example/alpha";
    product 2 "Gamma buds" "https://c.example/gamma";
    product 3 "Beta buds" "https://b.example/beta" ].

(** The same with a link that no result has. *)
Definition invented : list ProductRecommendation :=
  [ product 1 "Alpha buds" "https://a.example/alpha";
    product 2 "Omega buds" "https://nowhere.example/omega";
    product 3 "Beta buds" "https://b.example/beta" ].

Definition response : SearchResponse :=
  {| products := top3; total_results := ofZ 4; search_time := ofZ 2;
     cached := false |}.

(** A prompt that is the template followed by the keyword. *)
Definition samplePrompt (kw : jsstr) (results : list SearchResult)
    (template : jsstr) : jsstr := template ++ kw.

Definition sampleStricter : jsstr := lit " Use only the links given.".

(** A provider that invents a link until it is told to be strict. *)
Definition forgetful (prompt : jsstr) : Generated :=
  if bool_decide (prompt = lit "Pick three: wireless earbuds") then
    Structured invented
  else Structured top3.

(** A hash that keeps the normalised keyword as it is. *)
Definition plainHash (s : jsstr) : jsstr := s.

Definition submission (kw : string) (t : Z) : Submission :=
  {| sub_keyword := lit kw; now := t; configuredTtl := None;
     cacheAvailable := true; searchAnswer := inr earbuds;
     generateStructured := forgetful; promptTemplate := lit "Pick three: ";
     elapsed := ofZ 2 |}.

(** A page with a blank keyword in the field. *)
Definition blankPage : UI :=
  {| keyword := [32; 9; 12288]%N; isSubmitting := false;
     searchResults := None; isLoading := false; hasSearched := false;
     apiClient := newApiClient; toasts := []; console := []; sent := [] |}.

Definition loggedIn : ApiClient := {| token := Some (lit "t0k3n") |}.

Definition reply {T} (s : ApiStatus) (d : option T) (m : option string)
  : ApiResponse T :=
  {| status := s; data := d; message := lit <$> m |}.

(** The same keyword submitted twice, differently typed, 4900 seconds
    apart. *)
Definition first : Submission := submission "Wireless Earbuds" 100.
Definition second : Submission := submission "  wireless earbuds " 5000.
Definition twice : list Event := [Submit first; Submit second].

End Samples.

(** ** Scenarios *)

Module Scenarios.
Import JS Types Api SearchForm Samples.

Definition admin : AdminLoginRequest :=
  {| username := lit "admin"; password := lit "secret" |}.

(** What a successful login returns. *)
Definition granted : AdminLoginResponse :=
  {| Types.token := lit "abc"; expires_in := ofZ 3600 |}.

(** A search that finds [response], and one that the server fails. *)
Definition found : wire (ApiResponse SearchResponse) :=
  HttpReply 200 (reply success (Some response) None).
Definition failed : wire (ApiResponse SearchResponse) :=
  HttpReply 500 (reply error None (Some "boom"%string)).

(** The page with a keyword typed into the field. *)
Definition typedPage : UI := handleInputChange (lit " earbuds ") Page.initial.

(** A visitor types a keyword and presses Enter. *)
Definition searchOnce : list Page.Action :=
  [Page.Input (lit "earbuds"); Page.KeyDown (lit "Enter") found].

(** Two calls 100 ms apart, then 300 ms of quiet. *)
Definition burst : list (Debounce.Event jsstr) :=
  [Debounce.Call (lit "a"); Debounce.Wait 100; Debounce.Call (lit "ab");
   Debounce.Wait 300].

(** The closure after the burst: the timer of the second call is
    pending and due. *)
Definition afterBurst : Debounce.Debounced jsstr :=
  default Debounce.debounce (Debounce.run (ofZ 300) Debounce.debounce burst).



(** A reader and a writer of the two JSON texts [true] and [null]. *)
Definition readLiteral (s : jsstr) : option Storage.json :=
  if bool_decide (s = lit "true") then Some (Storage.JBool true)
  else if bool_decide (s = lit "null") then Some Storage.JNull
  else None.
Definition writeLiteral (v : Storage.json) : jsstr :=
  match v with
  | Storage.JBool true => lit "true"
  | _ => lit "null"
  end.
Definition roomy (items : gmap jsstr jsstr) (key value : jsstr) : bool := true.

End Scenarios.

(** * Properties *)

(** ** The API client *)

Module ApiFacts.
Import JS Types Api Session.

Lemma request_sent {B} c cfg (w : wire B) :
  (request c cfg w).1.2 = requestInterceptor c cfg.
Proof. unfold request. by destruct (settle w). Qed.

Lemma request_outcome {B} c cfg (w : wire B) :
  (request c cfg w).2 = settle w.
Proof. unfold request. by destruct (settle w). Qed.

Lemma settle_status {B} (w : wire B) e :
  settle w = Rejected e →
  responseStatus e = match w with HttpReply st _ => Some st | _ => None end.
Proof.
  destruct w as [st b|m|m]; simpl.
  - destruct (validateStatus st); [done|]. by intros [= <-].
  - by intros [= <-].
  - by intros [= <-].
Qed.

Lemma validateStatus_401 st : (st =? 401)%Z = true → validateStatus st = false.
Proof. unfold validateStatus. lia. Qed.

(** The interceptor chain clears the token on a 401 and on nothing
    else. *)
Lemma request_token {B} c cfg (w : wire B) :
  token (request c cfg w).1.1 = if is401 w then None else token c.
Proof.
  unfold request. destruct (settle w) as [r|e] eqn:Hs; simpl.
  - destruct w as [st b|m|m]; simpl in *; try done.
    destruct (st =? 401)%Z eqn:H401; [|done].
    by rewrite (validateStatus_401 _ H401) in Hs.
  - unfold responseRejected. rewrite (settle_status _ _ Hs).
    destruct w as [st b|m|m]; simpl; try done.
    by destruct (st =? 401)%Z.
Qed.

Lemma requestInterceptor_no_token c cfg :
  token c = None → requestInterceptor c cfg = cfg.
Proof. unfold requestInterceptor. by intros ->. Qed.

(** With a token in store the request carries it as a bearer token. *)
Lemma requestInterceptor_with_token c cfg t :
  token c = Some t → t ≠ [] →
  Authorization (requestInterceptor c cfg) = Some (lit "Bearer " ++ t).
Proof. unfold requestInterceptor. intros -> Ht. by destruct t. Qed.

(** Each method passes its request through [request] once; only
    [adminLogin] touches the token afterwards. *)
Lemma getTopProducts_request c req w :
  (getTopProducts c req w).1
  = (request c (post "/api/get-top3" (SearchPayload req)) w).1.
Proof. unfold getTopProducts. by destruct (request _ _ _) as [[??]?]. Qed.

Lemma getConfigurations_request c w :
  (getConfigurations c w).1 = (request c (get "/api/admin/settings") w).1.
Proof. unfold getConfigurations. by destruct (request _ _ _) as [[??]?]. Qed.

Lemma updateConfigurations_request c req w :
  (updateConfigurations c req w).1
  = (request c (post "/api/admin/settings" (UpdatePayload req)) w).1.
Proof. unfold updateConfigurations. by destruct (request _ _ _) as [[??]?]. Qed.

Lemma testConnection_request c w :
  (testConnection c w).1 = (request c (get "/api/health") w).1.
Proof. unfold testConnection. by destruct (request _ _ _) as [[??]?]. Qed.

Lemma adminLogin_sent c req w :
  (adminLogin c req w).1.2
  = (request c (post "/api/admin/login" (LoginPayload req)) w).1.2.
Proof.
  unfold adminLogin. destruct (request _ _ _) as [[c' sent] [r|e]]; [|done].
  by destruct (unwrap _ r).
Qed.

Lemma adminLogin_token c req w :
  callsSetToken (AdminLogin req w) = false →
  (adminLogin c req w).1.1
  = (request c (post "/api/admin/login" (LoginPayload req)) w).1.1.
Proof.
  unfold adminLogin, callsSetToken. intros H.
  pose proof (request_outcome c (post "/api/admin/login" (LoginPayload req)) w) as Ho.
  destruct (request _ _ _) as [[c' sent] [r|e]]; simpl in *; [|done].
  rewrite <- Ho in H. unfold unwrap.
  by destruct (status (body r)), (data (body r)).
Qed.

(** A call that goes through [request]: its client and its request are
    those of [request]. *)
Local Ltac through_request Hmethod c cfg w :=
  let H := fresh "H" in
  let Hs := fresh "Hs" in
  let Ht := fresh "Ht" in
  pose proof Hmethod as H;
  pose proof (request_sent c cfg w) as Hs;
  pose proof (request_token c cfg w) as Ht;
  lazymatch type of H with
  | (?call).1.2 = _ => destruct call as [[??]?]
  | (?call).1.1 = _ => destruct call as [[??]?]
  | (?call).1 = _ => destruct call as [[??]?]
  end;
  simpl in *.

(** The request a call sends, seen through the interceptor. *)
Lemma step_sent c k r :
  (step c k).2 = Some r →
  ∃ cfg, Authorization cfg = None ∧ r = requestInterceptor c cfg.
Proof.
  destruct k as [req w|req w|w|req w|w|t|]; simpl; try done.
  - through_request (getTopProducts_request c req w)
      c (post "/api/get-top3" (SearchPayload req)) w.
    intros [= <-]. eexists. split; [|by rewrite <- Hs, <- H]. done.
  - through_request (adminLogin_sent c req w)
      c (post "/api/admin/login" (LoginPayload req)) w.
    intros [= <-]. eexists. split; [|by rewrite <- Hs, <- H]. done.
  - through_request (getConfigurations_request c w)
      c (get "/api/admin/settings") w.
    intros [= <-]. eexists. split; [|by rewrite <- Hs, <- H]. done.
  - through_request (updateConfigurations_request c req w)
      c (post "/api/admin/settings" (UpdatePayload req)) w.
    intros [= <-]. eexists. split; [|by rewrite <- Hs, <- H]. done.
  - through_request (testConnection_request c w) c (get "/api/health") w.
    intros [= <-]. eexists. split; [|by rewrite <- Hs, <- H]. done.
Qed.

(** The token after a call that does not reach [setToken]. *)
Lemma step_token c k :
  callsSetToken k = false →
  token (step c k).1
  = if answered401 k then None
    else match k with Logout => None | _ => token c end.
Proof.
  destruct k as [req w|req w|w|req w|w|t|]; intros Hk; simpl; try done.
  - through_request (getTopProducts_request c req w)
      c (post "/api/get-top3" (SearchPayload req)) w.
    by rewrite <- Ht, <- H.
  - through_request (adminLogin_token c req w Hk)
      c (post "/api/admin/login" (LoginPayload req)) w.
    by rewrite <- Ht, <- H.
  - through_request (getConfigurations_request c w)
      c (get "/api/admin/settings") w.
    by rewrite <- Ht, <- H.
  - through_request (updateConfigurations_request c req w)
      c (post "/api/admin/settings" (UpdatePayload req)) w.
    by rewrite <- Ht, <- H.
  - through_request (testConnection_request c w) c (get "/api/health") w.
    by rewrite <- Ht, <- H.
Qed.

(** Without a token, and as long as nothing calls [setToken], no request
    carries an [Authorization] header and the token stays [null]. *)
Lemma run_without_token ks : ∀ c,
  token c = None →
  Forall (λ k, callsSetToken k = false) ks →
  token (run c ks).1 = None
  ∧ Forall (λ r, Authorization r = None) (run c ks).2.
Proof.
  induction ks as [|k ks IH]; intros c Hc Hks; simpl.
  - by split.
  - inversion Hks as [|?? Hk Hks']; subst.
    pose proof (step_token c k Hk) as Ht.
    pose proof (step_sent c k) as Hs.
    destruct (step c k) as [c' r]. simpl in *.
    assert (token c' = None) as Hc'.
    { rewrite Ht, Hc. by destruct (answered401 k), k. }
    destruct (IH c' Hc' Hks') as [IH1 IH2].
    destruct (run c' ks) as [c'' rs]. simpl in *. split; [done|].
    apply Forall_app. split; [|done].
    destruct r as [r|]; simpl; [|done].
    apply Forall_singleton.
    destruct (Hs r eq_refl) as (cfg & Hcfg & ->).
    by rewrite requestInterceptor_no_token.
Qed.

(** C10. A reply with HTTP status 401 sets the stored token to [null]
    and a reply with any other status, or no reply, leaves it as it was;
    after a call that was answered 401, every request sent before the
    next call of [setToken] goes out without an [Authorization] header;
    and a call that is answered otherwise and does not itself call
    [setToken] or [logout] leaves the token unchanged. *)
Theorem unauthorized_clears_token :
  (∀ B c cfg (w : wire B),
     token (request c cfg w).1.1 = if is401 w then None else token c)
  ∧ (∀ c k ks,
       answered401 k = true →
       Forall (λ k', callsSetToken k' = false) ks →
       token (step c k).1 = None
       ∧ Forall (λ r, Authorization r = None) (run (step c k).1 ks).2)
  ∧ (∀ c k,
       answered401 k = false → callsSetToken k = false → k ≠ Logout →
       token (step c k).1 = token c).
Proof.
  split; [|split].
  - intros. apply request_token.
  - intros c k ks H401 Hks.
    assert (callsSetToken k = false) as Hk.
    { destruct k as [req w|req w|w|req w|w|t|]; try done. simpl in *.
      destruct w as [st b|m|m]; simpl in *; try done.
      by rewrite (validateStatus_401 _ H401). }
    assert (token (step c k).1 = None) as Hc.
    { by rewrite (step_token c k Hk), H401. }
    split; [done|]. by apply run_without_token.
  - intros c k H401 Hk Hl. rewrite (step_token c k Hk), H401. by destruct k.
Qed.

(** The status of a reply that axios resolves with. *)
Lemma validateStatus_range st :
  validateStatus st = true ↔ (200 ≤ st < 300)%Z.
Proof. unfold validateStatus. lia. Qed.

(** C6, as amended. [getTopProducts] returns a [SearchResponse] exactly
    when the reply has an HTTP status from 200 to 299, the [status]
    ['success'] and a [data] payload, and then it returns that payload.
    For every other reply it throws a plain [Error]: with a status from
    200 to 299 its message is the reply's [message] or, without one, a
    fixed text; with any other status it is the network-error prefix
    followed by the reply's [message] or, without one, by axios' text
    with the status code. When no reply arrives the message is the
    prefix followed by axios' text, and an error that is not axios' is
    thrown again with the message it has. *)
Theorem getTopProducts_amended c req :
  (∀ w d, (getTopProducts c req w).2 = Fulfilled d ↔
          ∃ st b, w = HttpReply st b ∧ (200 ≤ st < 300)%Z
                  ∧ status b = success ∧ data b = Some d)
  ∧ (∀ st b, (200 ≤ st < 300)%Z → status b = error ∨ data b = None →
       (getTopProducts c req (HttpReply st b)).2
       = Rejected (Error (or_else (message b) msgGetTopFailed)))
  ∧ (∀ st b, ¬ (200 ≤ st < 300)%Z →
       (getTopProducts c req (HttpReply st b)).2
       = Rejected (Error (msgNetworkError
                          ++ or_else (message b)
                               (lit "Request failed with status code "
                                ++ decimal (Z.to_N st)))))
  ∧ (∀ m, (getTopProducts c req (NoReply m)).2
          = Rejected (Error (msgNetworkError ++ m)))
  ∧ (∀ m, (getTopProducts c req (Unexpected m)).2 = Rejected (Error m)).
Proof.
  assert (∀ w, (getTopProducts c req w).2
               = tryCatch
                   match settle w with
                   | Fulfilled response => unwrap msgGetTopFailed response
                   | Rejected e => Rejected e
                   end
                   (rethrow msgNetworkError)) as Hr.
  { intros w. unfold getTopProducts.
    pose proof (request_outcome c (post "/api/get-top3" (SearchPayload req)) w) as Ho.
    destruct (request _ _ _) as [[c' sent] r]. simpl in *. by subst r. }
  split; [|split; [|split; [|split]]].
  - intros w d. rewrite Hr. destruct w as [st b|m|m]; simpl.
    + destruct (validateStatus st) eqn:Hv; simpl.
      * apply validateStatus_range in Hv. unfold unwrap. simpl.
        destruct (status b) eqn:Hs, (data b) as [d'|] eqn:Hd; simpl.
        -- split.
           ++ intros [= <-]. by exists st, b.
           ++ intros (st' & b' & [= <- <-] & _ & _ & Hd'). congruence.
        -- split; [done|]. intros (st' & b' & [= <- <-] & _ & _ & Hd'). congruence.
        -- split; [done|]. intros (st' & b' & [= <- <-] & _ & Hs' & _). congruence.
        -- split; [done|]. intros (st' & b' & [= <- <-] & _ & Hs' & _). congruence.
      * split; [done|]. intros (st' & b' & [= <- <-] & Hst & _).
        apply validateStatus_range in Hst. congruence.
    + split; [done|]. by intros (? & ? & ? & _).
    + split; [done|]. by intros (? & ? & ? & _).
  - intros st b Hst%validateStatus_range Hb. rewrite Hr. simpl. rewrite Hst.
    unfold unwrap. simpl. destruct Hb as [->| ->]; [done|]. by destruct (status b).
  - intros st b Hst. rewrite Hr. simpl.
    destruct (validateStatus st) eqn:Hv; [|done].
    by apply validateStatus_range in Hv.
  - intros m. by rewrite Hr.
  - intros m. by rewrite Hr.
Qed.

(** C6, against the claim as stated: a reply with the status ['success']
    and a [data] payload is not returned when its HTTP status is 500,
    and an error that is not axios', such as the [TypeError] of reading
    a reply without a body, reaches the caller with its internal
    message. *)
Lemma getTopProducts_rejects_success_reply :
  status (Samples.reply success (Some Samples.response) None) = success
  ∧ data (Samples.reply success (Some Samples.response) None)
    = Some Samples.response
  ∧ (getTopProducts newApiClient {| keyword := lit "earbuds" |}
       (HttpReply 500 (Samples.reply success (Some Samples.response) None))).2
    = Rejected (Error (msgNetworkError
                       ++ lit "Request failed with status code 500"))
  ∧ (getTopProducts newApiClient {| keyword := lit "earbuds" |}
       (Unexpected (lit "Cannot read properties of null (reading 'status')"))).2
    = Rejected (Error (lit "Cannot read properties of null (reading 'status')")).
Proof. repeat split. Qed.

(** The message thrown for a reply does not depend on its payload. *)
Lemma failureText_ignores_data st s d d' m :
  failureText (HttpReply st {| status := s; data := d; message := m |})
  = failureText (HttpReply st {| status := s; data := d'; message := m |}).
Proof. done. Qed.






End ApiFacts.

(** ** The search form *)

Module SearchFormFacts.
Import JS Types Api SearchForm.

(** C5. When the trimmed keyword is empty, [handleSubmit] only shows the
    error toast: no request is sent, the client is not touched, and the
    results on display, the loading flag and the submitting flag stay as
    they were. *)
Theorem handleSubmit_blank_keyword w u :
  trim (keyword u) = [] →
  handleSubmit w u = toast (ToastError msgEnterKeyword) u
  ∧ sent (handleSubmit w u) = sent u
  ∧ apiClient (handleSubmit w u) = apiClient u
  ∧ searchResults (handleSubmit w u) = searchResults u
  ∧ hasSearched (handleSubmit w u) = hasSearched u
  ∧ isLoading (handleSubmit w u) = isLoading u
  ∧ isSubmitting (handleSubmit w u) = isSubmitting u.
Proof.
  intros H. unfold handleSubmit. rewrite H. simpl. done.
Qed.

(** With anything else in the field exactly one request goes out, and it
    carries the trimmed keyword. *)
Lemma handleSubmit_sends w u :
  trim (keyword u) ≠ [] →
  ∃ r, sent (handleSubmit w u) = sent u ++ [r]
       ∧ payload r = SearchPayload {| Types.keyword := trim (keyword u) |}.
Proof.
  intros H. unfold handleSubmit. cbn [keyword setIsSubmitting onLoadingChange].
  destruct (trim (keyword u)) as [|a s] eqn:Ht; [done|]. simpl.
  pose proof (ApiFacts.getTopProducts_request (apiClient u)
                {| Types.keyword := a :: s |} w) as Hr.
  pose proof (ApiFacts.request_sent (apiClient u)
                (post "/api/get-top3" (SearchPayload {| Types.keyword := a :: s |})) w) as Hs.
  destruct (getTopProducts _ _ _) as [[c r] res]. simpl in *.
  exists r. split.
  - by destruct res as [v|e]; [destruct (cached v)|].
  - assert (r = (request (apiClient u)
                   (post "/api/get-top3" (SearchPayload {| Types.keyword := a :: s |})) w).1.2)
      as -> by by rewrite <- Hr.
    rewrite Hs. unfold requestInterceptor.
    destruct (token (apiClient u)) as [t|]; [|done]. by destruct (truthy t).
Qed.

End SearchFormFacts.

(** ** Trimming *)

Module TrimFacts.
Import JS.

Example trim_strips_both_ends :
  trim ([32; 9; 160; 12288]%N ++ lit "wireless  earbuds" ++ [10; 13; 65279]%N)
  = lit "wireless  earbuds"
  ∧ trim [32; 9; 12288]%N = [].
Proof. split; by vm_compute. Qed.

Lemma dropWhile_app_all {A} (p : A → bool) l s :
  Forall (λ c, p c = true) l → dropWhile p (l ++ s) = dropWhile p s.
Proof. induction 1 as [|c l Hc _ IH]; simpl; [done|]. by rewrite Hc. Qed.

Lemma dropWhile_all {A} (p : A → bool) l :
  Forall (λ c, p c = true) l → dropWhile p l = [].
Proof. induction 1 as [|c l Hc _ IH]; simpl; [done|]. by rewrite Hc. Qed.

Lemma dropWhile_map {A} (p : A → bool) (f : A → A) s :
  (∀ c, p (f c) = p c) → dropWhile p (map f s) = map f (dropWhile p s).
Proof.
  intros Hf. induction s as [|c s IH]; simpl; [done|].
  rewrite Hf. by destruct (p c).
Qed.

Lemma trimStart_app_blank l s :
  Forall (λ c, isWhiteSpace c = true) l → trimStart (l ++ s) = trimStart s.
Proof. apply dropWhile_app_all. Qed.

Lemma trimEnd_app_blank s r :
  Forall (λ c, isWhiteSpace c = true) r → trimEnd (s ++ r) = trimEnd s.
Proof.
  intros Hr. unfold trimEnd. rewrite rev_app_distr.
  rewrite dropWhile_app_all; [done|]. by apply Forall_rev.
Qed.

(** Blank margins do not survive [trim]. *)
Lemma trim_app_blank_l l s :
  Forall (λ c, isWhiteSpace c = true) l → trim (l ++ s) = trim s.
Proof. intros Hl. unfold trim. by rewrite trimStart_app_blank. Qed.

Lemma trim_app_blank_r s r :
  Forall (λ c, isWhiteSpace c = true) r → trim (s ++ r) = trim s.
Proof.
  intros Hr. unfold trim, trimStart.
  induction s as [|c s IH]; simpl.
  - by rewrite dropWhile_all.
  - destruct (isWhiteSpace c) eqn:Hc; [done|].
    by rewrite app_comm_cons, trimEnd_app_blank.
Qed.

Lemma trim_map f s :
  (∀ c, isWhiteSpace (f c) = isWhiteSpace c) → trim (map f s) = map f (trim s).
Proof.
  intros Hf. unfold trim, trimEnd, trimStart.
  rewrite dropWhile_map by done. rewrite <- map_rev.
  rewrite dropWhile_map by done. by rewrite map_rev.
Qed.

Lemma dropWhile_head {A} (p : A → bool) s c s' :
  dropWhile p s = c :: s' → p c = false.
Proof.
  induction s as [|a s IH]; simpl; [done|].
  destruct (p a) eqn:Ha; [done|]. by intros [= <- _].
Qed.

Lemma takeWhile_dropWhile {A} (p : A → bool) s :
  takeWhile p s ++ dropWhile p s = s.
Proof.
  induction s as [|c s IH]; simpl; [done|].
  destruct (p c); simpl; [by rewrite IH|done].
Qed.

Lemma takeWhile_all {A} (p : A → bool) s :
  Forall (λ c, p c = true) (takeWhile p s).
Proof.
  induction s as [|c s IH]; simpl; [done|].
  destruct (p c) eqn:Hc; [by constructor|done].
Qed.

(** A string is its trimmed form between two blank margins. *)
Lemma trim_decompose s :
  ∃ l r, Forall (λ c, isWhiteSpace c = true) l
         ∧ Forall (λ c, isWhiteSpace c = true) r
         ∧ s = l ++ trim s ++ r.
Proof.
  exists (takeWhile isWhiteSpace s),
         (rev (takeWhile isWhiteSpace (rev (trimStart s)))).
  split; [apply takeWhile_all|]. split; [apply Forall_rev, takeWhile_all|].
  unfold trim, trimEnd. rewrite <- rev_app_distr, takeWhile_dropWhile.
  rewrite rev_involutive. unfold trimStart. by rewrite takeWhile_dropWhile.
Qed.

Lemma trim_idemp s : trim (trim s) = trim s.
Proof.
  destruct (trim_decompose s) as (l & r & Hl & Hr & Hs).
  rewrite Hs at 2. by rewrite trim_app_blank_l, trim_app_blank_r.
Qed.

End TrimFacts.

(** ** The pipeline *)

Module PipelineFacts.
Import JS Types Pipeline TrimFacts.

Section KeyDerivation.

Variable caseFold : N → N.
Variable hash : jsstr → jsstr.

(** Case folding does not turn whitespace into something else or the
    other way round. *)
Hypothesis caseFold_whitespace :
  ∀ c, isWhiteSpace (caseFold c) = isWhiteSpace c.

Lemma normalize_margins l c r :
  blank l → blank r →
  normalize caseFold (l ++ c ++ r) = normalize caseFold c.
Proof using Type.
  intros Hl Hr. unfold normalize.
  by rewrite trim_app_blank_l, trim_app_blank_r.
Qed.

Lemma normalize_caseFold a b :
  map caseFold a = map caseFold b →
  normalize caseFold a = normalize caseFold b.
Proof using caseFold_whitespace.
  intros H. unfold normalize.
  rewrite <- !trim_map by done. by rewrite H.
Qed.

Lemma sameKeyword_normalize a b :
  sameKeyword caseFold a b → normalize caseFold a = normalize caseFold b.
Proof using caseFold_whitespace.
  intros (la & ca & ra & lb & cb & rb & -> & -> & Hla & Hra & Hlb & Hrb & Hc).
  rewrite !normalize_margins by done. by apply normalize_caseFold.
Qed.

(** C4. Keywords that differ only in leading or trailing whitespace or
    in letter case have the same cache key; the key is the hash of the
    normalised keyword, so keywords with the same normal form have the
    same key; and the keyword the search form submits, the trimmed one,
    has the key of the keyword as typed. *)
Theorem cacheKey_normalization a b :
  sameKeyword caseFold a b →
  cacheKey caseFold hash a = cacheKey caseFold hash b
  ∧ cacheKey caseFold hash (trim a) = cacheKey caseFold hash a
  ∧ (∀ x y, normalize caseFold x = normalize caseFold y →
            cacheKey caseFold hash x = cacheKey caseFold hash y)
  ∧ (∀ x, cacheKey caseFold hash x = hash (normalize caseFold x)).
Proof using caseFold_whitespace.
  intros H. unfold cacheKey. split; [|split; [|split]].
  - by rewrite (sameKeyword_normalize a b H).
  - unfold normalize. by rewrite trim_idemp.
  - by intros x y ->.
  - done.
Qed.

End KeyDerivation.

(** Folding the ASCII letters leaves whitespace alone. *)
Lemma asciiLower_whitespace c :
  isWhiteSpace (asciiLower c) = isWhiteSpace c.
Proof.
  unfold asciiLower.
  destruct ((65 <=? c) && (c <=? 90))%N eqn:Hc; [|done].
  apply andb_true_iff in Hc as [H1%N.leb_le H2%N.leb_le].
  unfold isWhiteSpace.
  repeat match goal with
  | |- context [(?x =? ?k)%N] => rewrite (proj2 (N.eqb_neq x k)) by lia
  end.
  rewrite (proj2 (N.leb_gt 0x2000 (c + 32))), (proj2 (N.leb_gt 0x2000 c)) by lia.
  done.
Qed.

Section Extractor.

Variable buildPrompt : jsstr → list SearchResult → jsstr → jsstr.
Variable stricter : jsstr.

Lemma validate_provenance results ps :
  validate results ps = true →
  Forall (λ p, source_link p ∈ map link results) ps.
Proof.
  unfold validate. rewrite !andb_true_iff. intros (_ & Hall).
  apply Forall_forall. intros p Hp.
  rewrite forallb_forall in Hall.
  specialize (Hall p (proj1 (list_elem_of_In _ _) Hp)).
  by apply bool_decide_eq_true in Hall.
Qed.

Lemma validate_three results ps :
  validate results ps = true →
  length ps = 3
  ∧ ∀ k, k ∈ [1; 2; 3]%Z → ∃ p, p ∈ ps ∧ strictEquals (rank p) (ofZ k) = true.
Proof.
  unfold validate. rewrite !andb_true_iff.
  intros ((Hlen & (H1 & H2) & H3) & _).
  split; [by apply Nat.eqb_eq|].
  intros k Hk. rewrite !elem_of_cons, elem_of_nil in Hk.
  unfold hasRank in *. rewrite existsb_exists in H1, H2, H3.
  destruct Hk as [->|[->|[->|[]]]];
    [destruct H1 as (p & Hp & ?)|destruct H2 as (p & Hp & ?)
     |destruct H3 as (p & Hp & ?)];
    exists p; (split; [by apply list_elem_of_In|done]).
Qed.

Lemma repair_validated gen results prompt ps :
  repair stricter gen results prompt = inr ps → validate results ps = true.
Proof.
  unfold repair. destruct (gen _) as [ps'| | |]; try done.
  destruct (validate results ps') eqn:Hv; [|done]. by intros [= <-].
Qed.

(** Whatever the extractor returns has passed validation. *)
Lemma extract_validated gen kw results template ps :
  extract buildPrompt stricter gen kw results template = inr ps →
  validate results ps = true.
Proof.
  unfold extract. destruct (gen _) as [ps'| | |]; try done.
  - destruct (validate results ps') eqn:Hv.
    + by intros [= <-].
    + apply repair_validated.
  - apply repair_validated.
Qed.

(** C2. Every recommendation the extractor returns has the link of one
    of the search results it was given as its [source_link]; model
    output that breaks this is either replaced by the validated output
    of the repair attempt or makes the extraction fail. *)
Theorem extract_provenance gen kw results template ps :
  extract buildPrompt stricter gen kw results template = inr ps →
  Forall (λ p, source_link p ∈ map link results) ps.
Proof.
  intros H. by eapply validate_provenance, extract_validated.
Qed.

(** Output that breaks validation is never what [extract] returns: the
    result is then the repair attempt's. *)
Lemma extract_rejects gen kw results template ps0 :
  gen (buildPrompt kw results template) = Structured ps0 →
  validate results ps0 = false →
  extract buildPrompt stricter gen kw results template
  = repair stricter gen results (buildPrompt kw results template).
Proof. intros Hg Hv. unfold extract. by rewrite Hg, Hv. Qed.

End Extractor.

Section Orchestrator.

Variable caseFold : N → N.
Variable hash : jsstr → jsstr.
Variable maxKeywordLength : nat.
Variable buildPrompt : jsstr → list SearchResult → jsstr → jsstr.
Variable stricter : jsstr.

Local Abbreviation key s := (cacheKey caseFold hash (sub_keyword s)).
Local Abbreviation handle :=
  (Pipeline.handle caseFold hash maxKeywordLength buildPrompt stricter).
Local Abbreviation step :=
  (Pipeline.step caseFold hash maxKeywordLength buildPrompt stricter).
Local Abbreviation run :=
  (Pipeline.run caseFold hash maxKeywordLength buildPrompt stricter).
Local Abbreviation compute := (Pipeline.compute buildPrompt stricter).
Local Abbreviation touches := (Pipeline.touches caseFold hash).
Local Abbreviation servedFrom := (Pipeline.servedFrom caseFold hash).
Local Abbreviation cacheBacked := (Pipeline.cacheBacked caseFold hash).
Local Abbreviation hitsBacked := (Pipeline.hitsBacked caseFold hash).

(** A keyword the orchestrator accepts. *)
Local Abbreviation accepted s :=
  (invalidKeyword maxKeywordLength (normalize caseFold (sub_keyword s)) = false).

Lemma compute_fresh s r : compute s = inr r → cached r = false.
Proof.
  unfold Pipeline.compute. destruct (searchAnswer s) as [e|results]; [done|].
  destruct (extract _ _ _ _ _ _) as [e|ps]; [done|]. by intros [= <-].
Qed.

Lemma cacheGet_Some t k m r :
  cacheGet t k m = Some r ↔
  ∃ e, m !! k = Some e ∧ (t < expires_at e)%Z ∧ r = entry_value e.
Proof.
  unfold cacheGet. destruct (m !! k) as [e|]; simpl.
  - destruct (Z.ltb_spec t (expires_at e)).
    + split; [intros [= <-]; eauto|]. by intros (e' & [= <-] & _ & ->).
    + split; [done|]. intros (e' & [= <-] & ? & _). lia.
  - split; [done|]. by intros (e' & ? & _).
Qed.

(** The four ways a submission can end. *)
Lemma handle_cases s m :
  (handle s m = (m, inl InvalidKeyword))
  ∨ (∃ e, cacheAvailable s = true ∧ m !! key s = Some e
          ∧ (now s < expires_at e)%Z
          ∧ handle s m = (m, inr (setCached true (entry_value e))))
  ∨ (∃ err, handle s m = (m, inl err))
  ∨ (∃ r, compute s = inr r ∧ cached r = false
          ∧ handle s m
            = (if cacheAvailable s
               then cachePut (now s) (queryTtl s) (key s) r m else m, inr r)).
Proof.
  unfold Pipeline.handle.
  destruct (invalidKeyword _ _); [by left|]. right.
  destruct (if cacheAvailable s then _ else _) as [r|] eqn:Hget.
  - left. destruct (cacheAvailable s) eqn:Hc; [|done].
    apply cacheGet_Some in Hget as (e & He & Ht & ->). by exists e.
  - right. destruct (compute s) as [err|r] eqn:Hcomp.
    + left. by exists err.
    + right. exists r. by rewrite (compute_fresh s r Hcomp).
Qed.

(** The forward direction: a submission that finds an entry of its key
    that has not expired is answered with the stored response, flagged
    as cached, and the cache is left alone. *)
Lemma handle_hit s m e :
  accepted s → cacheAvailable s = true →
  m !! key s = Some e → (now s < expires_at e)%Z →
  handle s m = (m, inr (setCached true (entry_value e))).
Proof.
  intros Hacc Hc He Ht. unfold Pipeline.handle. rewrite Hacc, Hc.
  unfold cacheGet. rewrite He. simpl.
  by rewrite (proj2 (Z.ltb_lt _ _) Ht).
Qed.

Lemma servedFrom_snoc h d i j s r :
  (j < length h)%nat → servedFrom h i j s r → servedFrom (h ++ [d]) i j s r.
Proof.
  intros Hj (s0 & r0 & Hij & Hi & Hk & Hf & Ha & Hr & Ht & Hno).
  exists s0, r0. repeat split; try done.
  - by apply lookup_app_l_Some.
  - intros i' d' Hi' Hd'. apply (Hno i' d' Hi').
    rewrite lookup_app_l in Hd' by lia. done.
Qed.

Lemma cacheBacked_keep m h d :
  cacheBacked m h →
  (∀ k, is_Some (m !! k) → ¬ touches k d) →
  cacheBacked m (h ++ [d]).
Proof.
  intros Hm Hd k e He.
  destruct (Hm k e He) as (i & s & Hi & Hk & Hf & Ha & Hx & Hno).
  exists i, s. repeat split; try done.
  - by apply lookup_app_l_Some.
  - intros i' d' Hi' Hd'. apply lookup_snoc_Some in Hd' as [[? Hd']|[-> <-]].
    + by apply (Hno i' d').
    + apply Hd. by exists e.
Qed.

(** One event keeps both invariants. *)
Lemma step_backed m h ev :
  cacheBacked m h → hitsBacked h →
  cacheBacked (step m ev).1 (h ++ [(step m ev).2])
  ∧ hitsBacked (h ++ [(step m ev).2]).
Proof.
  intros Hm Hh.
  assert (∀ d, (∀ s r, d = Answered s (inr r) → cached r = true →
                       ∃ i, servedFrom (h ++ [d]) i (length h) s r) →
               hitsBacked (h ++ [d])) as Hext.
  { intros d Hd j s r Hj Hc.
    apply lookup_snoc_Some in Hj as [[Hlt Hj]|[-> ->]].
    - destruct (Hh j s r Hj Hc) as [i Hi]. exists i. by apply servedFrom_snoc.
    - by apply Hd. }
  destruct ev as [s|k0]; simpl.
  - destruct (handle_cases s m) as [H|[(e & Hc & He & Ht & H)|[(err & H)|(r & Hcomp & Hf & H)]]];
      rewrite H; simpl.
    + split.
      * apply cacheBacked_keep; [done|]. by intros k _ [].
      * apply Hext. by intros s' r' [= _ ?].
    + split.
      * apply cacheBacked_keep; [done|]. by intros k _ (_ & [=] & _).
      * apply Hext. intros s' r' [= <- <-] _.
        destruct (Hm _ _ He) as (i & s0 & Hi & Hk & Hf & Ha & Hx & Hno).
        exists i, s0, (entry_value e).
        pose proof (lookup_lt_Some _ _ _ Hi) as Hlt.
        repeat split; try done.
        -- by apply lookup_app_l_Some.
        -- lia.
        -- intros i' d' Hi' Hd'. rewrite lookup_app_l in Hd' by lia.
           apply (Hno i' d'); [lia|done].
    + split.
      * apply cacheBacked_keep; [done|]. by intros k _ [].
      * apply Hext. by intros s' r' [= _ ?].
    + split.
      * destruct (cacheAvailable s) eqn:Hc.
        -- intros k e. unfold cachePut. rewrite lookup_insert_Some.
           intros [[<- <-]|[Hne He]].
           ++ exists (length h), s. simpl. repeat split; try done.
              ** by apply list_lookup_middle.
              ** intros i' d' Hi' Hd'. apply lookup_lt_Some in Hd'.
                 rewrite length_app in Hd'. simpl in Hd'. lia.
           ++ revert k e Hne He.
              assert (cacheBacked (delete (key s) m) (h ++ [Answered s (inr r)])) as Hdel.
              { apply cacheBacked_keep.
                - intros k e He. apply lookup_delete_Some in He as [_ He].
                  by apply Hm.
                - intros k [e He] (Hk & _). apply lookup_delete_Some in He as [? _].
                  done. }
              intros k e Hne He. apply Hdel. by apply lookup_delete_Some.
        -- apply cacheBacked_keep; [done|]. intros k _ (_ & _ & Ha). congruence.
      * apply Hext. intros s' r' [= <- <-] Hc'. congruence.
  - split.
    + intros k e He. apply lookup_delete_Some in He as [Hne He].
      destruct (Hm k e He) as (i & s & Hi & Hk & Hf & Ha & Hx & Hno).
      exists i, s. repeat split; try done.
      * by apply lookup_app_l_Some.
      * intros i' d' Hi' Hd'. apply lookup_snoc_Some in Hd' as [[? Hd']|[-> <-]].
        -- by apply (Hno i' d').
        -- done.
    + apply Hext. by intros s' r' [=].
Qed.

Lemma run_backed evs : ∀ m h,
  cacheBacked m h → hitsBacked h →
  cacheBacked (run m h evs).1 (run m h evs).2 ∧ hitsBacked (run m h evs).2.
Proof.
  induction evs as [|ev evs IH]; intros m h Hm Hh; simpl; [done|].
  destruct (step_backed m h ev Hm Hh) as [Hm' Hh'].
  destruct (step m ev) as [m' d]. by apply IH.
Qed.

(** C7. Over any sequence of submissions and invalidations that starts
    with an empty cache: a response that is flagged as cached is the
    response computed for an earlier submission with the same key, equal
    to it in [products], [total_results] and [search_time] and flagged
    [cached = true], served before that computation's time to live had
    passed, with no recomputation or invalidation of the key in between;
    and a submission that finds an unexpired entry of its key is
    answered with exactly the stored response, which the cache keeps
    unchanged. *)
Theorem cache_hit_verbatim evs :
  let m := (run ∅ [] evs).1 in
  let h := (run ∅ [] evs).2 in
  (∀ j s r, h !! j = Some (Answered s (inr r)) → cached r = true →
     ∃ i, servedFrom h i j s r)
  ∧ (∀ s e, accepted s → cacheAvailable s = true →
       m !! key s = Some e → (now s < expires_at e)%Z →
       handle s m = (m, inr (setCached true (entry_value e)))
       ∧ ∃ i s0, h !! i = Some (Answered s0 (inr (entry_value e)))
                 ∧ key s0 = key s).
Proof.
  intros m h.
  destruct (run_backed evs ∅ []) as [Hm Hh].
  { by intros k e He. }
  { by intros j s r Hj. }
  split; [exact Hh|].
  intros s e Hacc Hc He Ht. split; [by apply handle_hit|].
  destruct (Hm _ _ He) as (i & s0 & Hi & Hk & _). by exists i, s0.
Qed.

End Orchestrator.

End PipelineFacts.

(** ** Numbers and their decimal numerals *)

Module NumberFacts.
Import JS.

(** The built-ins at inputs whose results are well known. *)
Example parseFloat_prefix :
  parseFloat (lit "12.5abc") = roundRatio false 25 2
  ∧ parseFloat (lit "  -.5e-2") = roundRatio true 5 1000
  ∧ parseFloat (lit "1e3") = ofZ 1000
  ∧ parseFloat (lit "12.") = ofZ 12
  ∧ parseFloat (lit ".") = S754_nan
  ∧ parseFloat (lit "") = S754_nan
  ∧ parseFloat (lit "-Infinity!") = S754_infinity true.
Proof. repeat split; by vm_compute. Qed.

Example toFixed_rounds_the_binary_value :
  toFixed 2 (parseFloat (lit "1.005")) = lit "1.00"
  ∧ toFixed 2 (parseFloat (lit "8.345")) = lit "8.35"
  ∧ toFixed 2 (parseFloat (lit "123.456")) = lit "123.46"
  ∧ toFixed 2 (parseFloat (lit "-1.5")) = lit "-1.50"
  ∧ toFixed 2 (parseFloat (lit "0.004")) = lit "0.00"
  ∧ toFixed 0 (parseFloat (lit "2.5")) = lit "3"
  ∧ toFixed 2 (parseFloat (lit "1e21")) = lit "1e+21"
  ∧ toFixed 2 (S754_infinity false) = lit "Infinity"
  ∧ toFixed 2 S754_nan = lit "NaN".
Proof. repeat split; by vm_compute. Qed.

Example numberToString_shortest :
  numberToString (parseFloat (lit "0.1")) = lit "0.1"
  ∧ numberToString (roundRatio false 3 10) = lit "0.3"
  ∧ numberToString (ofZ 123456789012345680000) = lit "123456789012345680000"
  ∧ numberToString (ofZ (10 ^ 21)) = lit "1e+21"
  ∧ numberToString (parseFloat (lit "1e23")) = lit "1e+23"
  ∧ numberToString (parseFloat (lit "1.7976931348623157e308"))
    = lit "1.7976931348623157e+308"
  ∧ numberToString (parseFloat (lit "5e-324")) = lit "5e-324"
  ∧ numberToString (parseFloat (lit "0.000001")) = lit "0.000001"
  ∧ numberToString (parseFloat (lit "0.0000001")) = lit "1e-7"
  ∧ numberToString (parseFloat (lit "-1.5e300")) = lit "-1.5e+300".
Proof. repeat split; by vm_compute. Qed.

Lemma uintUnits_digits d : Forall (λ c, isDigit c = true) (uintUnits d).
Proof. induction d; simpl; by constructor. Qed.

Lemma decimal_digits n : Forall (λ c, isDigit c = true) (decimal n).
Proof. apply uintUnits_digits. Qed.

Lemma decimal_nonempty n : decimal n ≠ [].
Proof.
  unfold decimal. destruct n as [|p]; [done|]. simpl.
  pose proof (DecimalPos.Unsigned.to_uint_nonnil p) as H.
  by destruct (Pos.to_uint p).
Qed.

Lemma horner_acc d : ∀ acc,
  fold_left (λ a c, (10 * a + (c - 48))%N) (uintUnits d) (Npos acc)
  = Npos (Pos.of_uint_acc d acc).
Proof.
  induction d as [|d IH|d IH|d IH|d IH|d IH|d IH|d IH|d IH|d IH|d IH];
    intros acc; simpl; [done|..]; rewrite <- IH; f_equal; lia.
Qed.

Lemma digitsValue_uint d : digitsValue (uintUnits d) = N.of_uint d.
Proof.
  unfold digitsValue, N.of_uint.
  induction d as [|d IH|d IH|d IH|d IH|d IH|d IH|d IH|d IH|d IH|d IH];
    simpl; [done|done|..]; by rewrite <- horner_acc.
Qed.

(** The decimal numeral of [n] reads back as [n]. *)
Lemma digitsValue_decimal n : digitsValue (decimal n) = n.
Proof. unfold decimal. rewrite digitsValue_uint. apply DecimalN.Unsigned.of_to. Qed.

Lemma digitsValue_zeros k s : digitsValue (zeros k ++ s) = digitsValue s.
Proof. unfold digitsValue, zeros. induction k as [|k IH]; simpl; [done|]. apply IH. Qed.

Lemma zeros_digits k : Forall (λ c, isDigit c = true) (zeros k).
Proof. unfold zeros. induction k; simpl; by constructor. Qed.

Lemma isDigit_range c : isDigit c = true ↔ (48 ≤ c ≤ 57)%N.
Proof. unfold isDigit. rewrite andb_true_iff, !N.leb_le. done. Qed.

(** A list of three or more elements, split before its last two. *)
Lemma split_last_two {A} (l : list A) :
  3 ≤ length l →
  ∃ ip d1 d2, l = ip ++ [d1; d2] ∧ ip ≠ []
              ∧ take (length l - 2) l = ip ∧ drop (length l - 2) l = [d1; d2].
Proof.
  intros Hl.
  pose proof (take_drop (length l - 2) l) as Hsplit.
  pose proof (length_drop l (length l - 2)) as Hd.
  pose proof (length_take l (length l - 2)) as Ht.
  destruct (drop (length l - 2) l) as [|d1 [|d2 [|d3 rest]]] eqn:Hdrop;
    simpl in Hd; try lia.
  exists (take (length l - 2) l), d1, d2. repeat split; try done.
  intros Hnil. rewrite Hnil in Ht. simpl in Ht. lia.
Qed.

(** The integer [toFixed] prints is the nearest one to the scaled
    value, the larger one of two: twice its distance to [p/q * 10^f] is
    at most one, and strictly less than one from below. *)
Lemma scaledNearest_nearest f m e :
  let n := scaledNearest f m e in
  (2 * Npos (ratio m e).2 * n ≤ 2 * Npos (ratio m e).1 * 10 ^ N.of_nat f + Npos (ratio m e).2
   < 2 * Npos (ratio m e).2 * (n + 1))%N.
Proof.
  unfold scaledNearest. destruct (ratio m e) as [p q]. simpl.
  assert (2 * Npos q ≠ 0)%N as Hq by lia.
  pose proof (N.div_mod (2 * Npos p * 10 ^ N.of_nat f + Npos q) _ Hq) as Hdm.
  pose proof (N.mod_lt (2 * Npos p * 10 ^ N.of_nat f + Npos q) _ Hq) as Hlt.
  remember (2 * N.pos p * 10 ^ N.of_nat f + N.pos q)%N as a eqn:Ha.
  remember (a `div` (2 * N.pos q))%N as d eqn:Hd.
  remember (a `mod` (2 * N.pos q))%N as r eqn:Hr.
  clear Ha Hd Hr. nia.
Qed.

End NumberFacts.

(** ** The price formatter *)

Module UtilsFacts.
Import JS Utils TrimFacts NumberFacts.

(** *** [toFixed(2)] *)

Lemma toFixed2_zero s : twoDecimals 0 (toFixed 2 (S754_zero s)).
Proof.
  exists [48%N], 48%N, 48%N. repeat split; try done.
  by repeat constructor.
Qed.

Lemma toFixed2_finite m e :
  atLeast1e21 m e = false →
  twoDecimals (scaledNearest 2 m e) (toFixed 2 (S754_finite false m e)).
Proof.
  intros Hlt. unfold toFixed. rewrite Hlt. simpl.
  set (ds := decimal (scaledNearest 2 m e)).
  set (ds' := zeros (3 - length ds) ++ ds).
  assert (3 ≤ length ds') as Hlen.
  { unfold ds', zeros. rewrite length_app, length_replicate. lia. }
  destruct (split_last_two ds' Hlen) as (ip & d1 & d2 & Hds' & Hip & Htake & Hdrop).
  exists ip, d1, d2. rewrite Htake, Hdrop.
  replace (ip ++ [d1; d2]) with ds' by done.
  repeat split; try done.
  - unfold ds'. apply Forall_app. split; [apply zeros_digits|apply decimal_digits].
  - unfold ds'. rewrite digitsValue_zeros. apply digitsValue_decimal.
Qed.

(** In its fixed range [toFixed(2)] prints the number in hundredths,
    with exactly two decimal places. *)
Lemma toFixed2_fixedRange x :
  fixedRange x = true → twoDecimals (hundredths x) (toFixed 2 x).
Proof.
  destruct x as [s|s| |[] m e]; try done.
  - intros _. apply (toFixed2_zero s).
  - intros H. apply toFixed2_finite. simpl in H. by destruct (atLeast1e21 m e).
Qed.

(** *** The regular expressions *)

Example stringMatch_leftmost :
  stringMatch priceRegex (lit "from $1,234.50 to $2,000") = Some (lit "1,234.50")
  ∧ stringMatch priceRegex (lit "v1.2.3") = Some (lit "1.2")
  ∧ stringMatch priceRegex (lit ".5") = Some (lit "5")
  ∧ stringMatch priceRegex (lit "a, b") = Some (lit ",")
  ∧ stringMatch priceRegex (lit "free") = None
  ∧ replaceAll commaRegex [] (lit ",1,234,") = lit "1234".
Proof. repeat split; by vm_compute. Qed.

(** A greedy loop whose continuation accepts what is left after the
    longest run matches that run. *)
Lemma repeatMatcher_greedy p k s n :
  k (dropWhile p s) = Some n →
  repeatMatcher p k s = Some (length (takeWhile p s) + n).
Proof.
  induction s as [|c s IH]; simpl; [done|].
  destruct (p c); [|done]. intros H. by rewrite (IH H).
Qed.

Lemma matchHere_digits t :
  matchHere [ {| accepts := isDigit; quantifier := ZeroOrMore |} ] t
  = Some (length (takeWhile isDigit t)).
Proof.
  simpl. rewrite (repeatMatcher_greedy _ _ _ 0); [|done]. f_equal. lia.
Qed.

Lemma matchHere_pointAndDigits t :
  matchHere [ {| accepts := isDot; quantifier := Optional |};
              {| accepts := isDigit; quantifier := ZeroOrMore |} ] t
  = Some (length (pointAndDigits t)).
Proof.
  cbn [matchHere quantifier accepts]. unfold pointAndDigits.
  destruct t as [|c t'].
  - done.
  - destruct (isDot c).
    + change (repeatMatcher isDigit (λ _, Some 0) t')
        with (matchHere [ {| accepts := isDigit; quantifier := ZeroOrMore |} ] t').
      by rewrite matchHere_digits.
    + change (repeatMatcher isDigit (λ _, Some 0) (c :: t'))
        with (matchHere [ {| accepts := isDigit; quantifier := ZeroOrMore |} ] (c :: t')).
      by rewrite matchHere_digits.
Qed.

(** The pattern matches at a digit or comma, and takes the whole run
    and what [\.?\d*] finds after it. *)
Lemma matchHere_price c t :
  isDigitOrComma c = true →
  matchHere priceRegex (c :: t)
  = Some (length (takeWhile isDigitOrComma (c :: t)
                  ++ pointAndDigits (dropWhile isDigitOrComma (c :: t)))).
Proof.
  intros Hc. unfold priceRegex.
  cbn [matchHere quantifier accepts]. rewrite Hc.
  rewrite (repeatMatcher_greedy _ _ _ (length (pointAndDigits (dropWhile isDigitOrComma t)))).
  - simpl. rewrite Hc. simpl. by rewrite length_app.
  - apply matchHere_pointAndDigits.
Qed.

Lemma matchHere_price_none s :
  match s with [] => True | c :: _ => isDigitOrComma c = false end →
  matchHere priceRegex s = None.
Proof.
  destruct s as [|c t]; [done|]. intros Hc. unfold priceRegex.
  cbn [matchHere quantifier accepts]. by rewrite Hc.
Qed.

Lemma pointAndDigits_prefix t :
  take (length (pointAndDigits t)) t = pointAndDigits t.
Proof.
  assert (∀ u, take (length (takeWhile isDigit u)) u = takeWhile isDigit u) as Htw.
  { induction u as [|c u IH]; simpl; [done|].
    destruct (isDigit c); simpl; [by rewrite IH|done]. }
  unfold pointAndDigits. destruct t as [|c t']; [done|].
  destruct (isDot c); simpl; [by rewrite Htw|apply (Htw (c :: t'))].
Qed.

(** [s.match(priceRegex)]: nothing when the string has no digit and no
    comma; otherwise the first run of digits and commas with the point
    and digits that follow it. *)
Lemma stringMatch_price s :
  stringMatch priceRegex s
  = match dropWhile (λ c, negb (isDigitOrComma c)) s with
    | [] => None
    | s1 =>
        Some (takeWhile isDigitOrComma s1
              ++ pointAndDigits (dropWhile isDigitOrComma s1))
    end.
Proof.
  unfold stringMatch.
  induction s as [|c s IH]; [done|].
  cbn [search dropWhile]. destruct (isDigitOrComma c) eqn:Hc; cbn [negb].
  - rewrite (matchHere_price c s Hc). cbn [mbind option_bind drop].
    f_equal. rewrite length_app.
    rewrite <- (takeWhile_dropWhile isDigitOrComma (c :: s)) at 3.
    rewrite take_app_add'; [|done]. by rewrite pointAndDigits_prefix.
  - rewrite (matchHere_price_none (c :: s) Hc).
    destruct (search priceRegex s) as [[i n]|] eqn:Hs; simpl in *.
    + by rewrite <- IH.
    + by rewrite <- IH.
Qed.

Lemma replaceAll_comma s :
  replaceAll commaRegex [] s = filter (λ c, isComma c = false) s.
Proof.
  unfold replaceAll. induction s as [|c s IH]; [done|].
  cbn [replaceFrom]. unfold commaRegex at 1.
  cbn [matchHere quantifier accepts].
  destruct (isComma c) eqn:Hc; simpl.
  - rewrite IH. by rewrite filter_cons_False by congruence.
  - rewrite IH. by rewrite filter_cons_True by done.
Qed.

(** *** [parseFloat] on what the pattern matched *)

Lemma takeWhile_app_all {A} (p : A → bool) l s :
  Forall (λ c, p c = true) l → takeWhile p (l ++ s) = l ++ takeWhile p s.
Proof. induction 1 as [|c l Hc _ IH]; simpl; [done|]. by rewrite Hc, IH. Qed.

Lemma takeWhile_id {A} (p : A → bool) l :
  Forall (λ c, p c = true) l → takeWhile p l = l.
Proof. induction 1 as [|c l Hc _ IH]; simpl; [done|]. by rewrite Hc, IH. Qed.

Lemma dot_not_digit c : isDot c = true → c = 46%N ∧ isDigit c = false.
Proof. unfold isDot. intros ->%N.eqb_eq. done. Qed.

(** A string that starts with a digit or a point has no leading
    whitespace, no sign, and is not [Infinity]. *)
Lemma numeral_start h u :
  isDigit h = true ∨ h = 46%N →
  trimStart (h :: u) = h :: u
  ∧ scanSign (h :: u) = (false, h :: u)
  ∧ isPrefixOf (lit "Infinity") (h :: u) = false.
Proof.
  intros Hh.
  assert (46 ≤ h ≤ 57)%N as Hr.
  { destruct Hh as [Hh| ->]; [apply isDigit_range in Hh|]; lia. }
  repeat split.
  - unfold trimStart. simpl. unfold isWhiteSpace.
    repeat match goal with
    | |- context [(h =? ?k)%N] => rewrite (proj2 (N.eqb_neq h k)) by lia
    end.
    rewrite (proj2 (N.leb_gt 0x2000 h)) by lia. done.
  - unfold scanSign.
    rewrite (proj2 (N.eqb_neq h 45)), (proj2 (N.eqb_neq h 43)) by lia. done.
  - change (lit "Infinity") with (73%N :: lit "nfinity").
    cbn [isPrefixOf]. rewrite (proj2 (N.eqb_neq 73 h)) by lia. done.
Qed.

(** Digits, then nothing or a point with digits: the literal
    [parseFloat] reads. *)
Lemma scanDecimal_int ip :
  Forall (λ c, isDigit c = true) ip →
  scanDecimal ip
  = if truthy ip
    then Some {| intDigits := ip; fracDigits := []; exponent := 0 |}
    else None.
Proof.
  intros Hip. unfold scanDecimal.
  rewrite (takeWhile_id _ _ Hip), (dropWhile_all _ _ Hip). simpl.
  by rewrite orb_false_r.
Qed.

Lemma scanDecimal_point ip fp :
  Forall (λ c, isDigit c = true) ip →
  Forall (λ c, isDigit c = true) fp →
  scanDecimal (ip ++ 46%N :: fp)
  = if truthy ip || truthy fp
    then Some {| intDigits := ip; fracDigits := fp; exponent := 0 |}
    else None.
Proof.
  intros Hip Hfp. unfold scanDecimal.
  rewrite (takeWhile_app_all _ _ _ Hip), (dropWhile_app_all _ _ _ Hip).
  simpl. rewrite app_nil_r.
  by rewrite (takeWhile_id _ _ Hfp), (dropWhile_all _ _ Hfp).
Qed.

Lemma parseFloat_int ip :
  Forall (λ c, isDigit c = true) ip → parseFloat ip = decimalNumber ip [].
Proof.
  intros Hip. unfold parseFloat, decimalNumber.
  destruct ip as [|h ip']; [done|].
  destruct (numeral_start h ip') as (-> & -> & ->).
  { left. by inversion Hip. }
  rewrite (scanDecimal_int _ Hip). simpl. by rewrite app_nil_r.
Qed.

Lemma parseFloat_point ip fp :
  Forall (λ c, isDigit c = true) ip →
  Forall (λ c, isDigit c = true) fp →
  parseFloat (ip ++ 46%N :: fp) = decimalNumber ip fp.
Proof.
  intros Hip Hfp. unfold parseFloat, decimalNumber.
  assert (∃ h u, ip ++ 46%N :: fp = h :: u ∧ (isDigit h = true ∨ h = 46%N))
    as (h & u & Hu & Hh).
  { destruct ip as [|h ip']; [by exists 46%N, fp; auto|].
    exists h, (ip' ++ 46%N :: fp). split; [done|]. left. by inversion Hip. }
  rewrite Hu. destruct (numeral_start h u Hh) as (-> & -> & ->).
  rewrite <- Hu, (scanDecimal_point _ _ Hip Hfp).
  destruct (truthy ip || truthy fp); [|done]. simpl; f_equal; lia.
Qed.

(** A decimal numeral denotes no negative number. *)
Lemma binary_round_aux_sign s m e l :
  match binary_round_aux prec emax s m e l with
  | S754_zero s' | S754_infinity s' | S754_finite s' _ _ => s' = s
  | S754_nan => True
  end.
Proof.
  unfold binary_round_aux.
  destruct (shr_fexp _ _ _ _ _) as [mrs' e'].
  destruct (shr_fexp _ _ _ _ _) as [mrs'' e''].
  destruct (shr_m mrs''); [done| |done].
  by destruct (_ <=? _)%Z.
Qed.

Lemma decimalNumber_sign ip fp :
  match decimalNumber ip fp with
  | S754_zero s | S754_infinity s | S754_finite s _ _ => s = false
  | S754_nan => True
  end.
Proof.
  unfold decimalNumber. destruct (_ || _); [|done].
  unfold roundDecimal. destruct (digitsValue _) as [|p]; [done|].
  unfold roundRatio, SFdiv.
  destruct (SFdiv_core_binary _ _ _ _ _ _) as [[mz ez] lz].
  apply binary_round_aux_sign.
Qed.

(** *** [formatPrice] *)

Lemma digit_not_comma c : isDigit c = true → isComma c = false.
Proof. intros H%isDigit_range. unfold isComma. apply N.eqb_neq. lia. Qed.

Lemma filter_commas_run run :
  Forall (λ c, isDigitOrComma c = true) run →
  filter (λ c, isComma c = false) run = filter (λ c, isDigit c = true) run.
Proof.
  induction 1 as [|c run Hc _ IH]; [done|].
  unfold isDigitOrComma in Hc. destruct (isDigit c) eqn:Hd.
  - rewrite !filter_cons_True by auto using digit_not_comma. by rewrite IH.
  - simpl in Hc. rewrite !filter_cons_False by congruence. done.
Qed.

Lemma filter_commas_digits l :
  Forall (λ c, isDigit c = true) l → filter (λ c, isComma c = false) l = l.
Proof.
  induction 1 as [|c l Hc _ IH]; [done|].
  rewrite filter_cons_True by auto using digit_not_comma. by rewrite IH.
Qed.

Lemma filter_digits_all l :
  Forall (λ c, isDigit c = true) (filter (λ c, isDigit c = true) l).
Proof.
  induction l as [|c l IH]; [done|].
  destruct (isDigit c) eqn:Hc.
  - rewrite filter_cons_True by done. by constructor.
  - rewrite filter_cons_False by congruence. done.
Qed.

(** What [formatPrice] makes of a non-empty string: the string itself
    when the pattern finds nothing, and otherwise the yen sign and
    [toFixed(2)] of the number read from the first run of digits and
    commas and the fraction after it. *)
Lemma formatPrice_string s :
  s ≠ [] →
  formatPrice (Some (PStr s))
  = match firstNumber s with
    | None => s
    | Some (ip, fp) => yen ++ toFixed 2 (decimalNumber ip fp)
    end.
Proof.
  intros Hs. unfold formatPrice.
  assert (falsy (Some (PStr s)) = false) as -> by by destruct s.
  rewrite stringMatch_price. unfold firstNumber.
  destruct (dropWhile (λ c, negb (isDigitOrComma c)) s) as [|c t] eqn:Hd; [done|].
  cbv zeta. f_equal. f_equal.
  rewrite replaceAll_comma, filter_app.
  rewrite (filter_commas_run _ (takeWhile_all isDigitOrComma (c :: t))).
  set (ip := filter (λ c0, isDigit c0 = true) (takeWhile isDigitOrComma (c :: t))).
  assert (Forall (λ c0, isDigit c0 = true) ip) as Hip by apply filter_digits_all.
  destruct (dropWhile isDigitOrComma (c :: t)) as [|c' t'] eqn:Hrest.
  - simpl. rewrite app_nil_r. by apply parseFloat_int.
  - apply dropWhile_head in Hrest as Hc'. unfold pointAndDigits.
    destruct (isDot c') eqn:Hdot.
    + destruct (dot_not_digit _ Hdot) as [-> _].
      rewrite filter_cons_True by done.
      rewrite (filter_commas_digits _ (takeWhile_all isDigit t')).
      apply parseFloat_point; [done|apply takeWhile_all].
    + unfold isDigitOrComma in Hc'. apply orb_false_iff in Hc' as [Hc' _].
      simpl. rewrite Hc'. simpl. rewrite app_nil_r. by apply parseFloat_int.
Qed.

(** A string without a digit or a comma has no first number. *)
Lemma firstNumber_none s :
  Forall (λ c, isDigitOrComma c = false) s → firstNumber s = None.
Proof.
  intros H. unfold firstNumber. rewrite dropWhile_all; [done|].
  eapply Forall_impl; [exact H|]. by intros c ->.
Qed.

(** C9, as amended. [formatPrice] maps an absent price, the empty
    string and the number 0 to the placeholder, so a price of 0 is shown
    like a missing one; for a finite positive number below 10^21 it
    returns the yen sign and the number in hundredths, rounded to the
    nearest one (upwards from the middle), with exactly two decimal
    places; for a string whose first run of digits and commas holds a
    digit it returns the yen sign and [toFixed(2)] of the number read
    from that run without its commas and the fraction that follows it,
    which has exactly two decimal places when that number is below
    10^21; and a non-empty string without a digit and without a comma
    is returned unchanged. *)
Theorem formatPrice_amended :
  (formatPrice None = placeholder
   ∧ formatPrice (Some (PStr [])) = placeholder
   ∧ formatPrice (Some (PNum (ofZ 0))) = placeholder
   ∧ formatPrice (Some (PNum (ofZ 0))) = formatPrice None)
  ∧ (∀ m e, atLeast1e21 m e = false →
       (∃ t, formatPrice (Some (PNum (S754_finite false m e))) = yen ++ t
             ∧ twoDecimals (scaledNearest 2 m e) t)
       ∧ (2 * Npos (ratio m e).2 * scaledNearest 2 m e
          ≤ 2 * Npos (ratio m e).1 * 100 + Npos (ratio m e).2
          < 2 * Npos (ratio m e).2 * (scaledNearest 2 m e + 1))%N)
  ∧ (∀ s ip fp, firstNumber s = Some (ip, fp) → ip ≠ [] →
       formatPrice (Some (PStr s)) = yen ++ toFixed 2 (decimalNumber ip fp)
       ∧ (fixedRange (decimalNumber ip fp) = true →
          twoDecimals (hundredths (decimalNumber ip fp))
                      (toFixed 2 (decimalNumber ip fp))))
  ∧ (∀ s, s ≠ [] → Forall (λ c, isDigitOrComma c = false) s →
       formatPrice (Some (PStr s)) = s).
Proof.
  split; [done|]. split; [|split].
  - intros m e Hlt. split.
    + exists (toFixed 2 (S754_finite false m e)). split; [done|].
      by apply toFixed2_finite.
    + apply (scaledNearest_nearest 2 m e).
  - intros s ip fp Hn Hip. split.
    + rewrite formatPrice_string; [by rewrite Hn|]. by destruct s.
    + apply toFixed2_fixedRange.
  - intros s Hs Hall. rewrite formatPrice_string by done.
    by rewrite firstNumber_none.
Qed.

(** C9, against the claim as stated: the positive number 10^21 is
    printed in exponential notation, not with two decimal places. *)
Lemma formatPrice_huge_number :
  formatPrice (Some (PNum (ofZ (10 ^ 21)))) = yen ++ lit "1e+21"
  ∧ SFltb (ofZ 0) (ofZ (10 ^ 21)) = true
  ∧ ∀ n, ¬ twoDecimals n (lit "1e+21").
Proof.
  split; [by vm_compute|]. split; [by vm_compute|].
  intros n (ip & d1 & d2 & Ht & _).
  assert (length ip = 2) as Hlen.
  { apply (f_equal length) in Ht. rewrite length_app in Ht.
    change (length (lit "1e+21")) with 5 in Ht. simpl in Ht. lia. }
  destruct ip as [|a [|b [|c ip]]]; simpl in Hlen; try lia.
  change (lit "1e+21") with [49; 101; 43; 50; 49]%N in Ht. discriminate.
Qed.

(** A comma that stands apart from the digits is taken for the number:
    the result is the yen sign and [NaN], with or without a digit
    sequence further on. *)
Lemma formatPrice_stray_comma :
  formatPrice (Some (PStr (lit "N/A, call"))) = yen ++ lit "NaN"
  ∧ formatPrice (Some (PStr (lit "call, 20"))) = yen ++ lit "NaN".
Proof. split; by vm_compute. Qed.

End UtilsFacts.

(** ** The client's methods and its token *)

Module ClientFacts.
Import JS Types Api Session ApiFacts.

Lemma adminLogin_fulfilled c req w d :
  (adminLogin c req w).2 = Fulfilled d →
  delivered w = Some d
  ∧ (adminLogin c req w).1.1
    = setToken (Types.token d) (request c (post "/api/admin/login" (LoginPayload req)) w).1.1.
Proof.
  unfold adminLogin, delivered.
  pose proof (request_outcome c (post "/api/admin/login" (LoginPayload req)) w) as Ho.
  destruct (request _ _ _) as [[c' sent] r]. simpl in *. subst r.
  destruct (settle w) as [r|e]; simpl.
  - unfold unwrap. destruct (status (body r)), (data (body r)) as [d'|]; simpl; try done.
    by intros [= <-].
  - by destruct e.
Qed.

(** X1. When [adminLogin] resolves, its result is the payload the reply
    delivered, the client stores that payload's token, and the request
    of whatever call comes next carries it as [Bearer <token>]; when
    the token is the empty string that request carries no
    [Authorization] header. *)
Theorem adminLogin_authorizes c req w d :
  (adminLogin c req w).2 = Fulfilled d →
  delivered w = Some d
  ∧ token (adminLogin c req w).1.1 = Some (Types.token d)
  ∧ ∀ k r, (step (adminLogin c req w).1.1 k).2 = Some r →
      Authorization r
      = if truthy (Types.token d) then Some (lit "Bearer " ++ Types.token d)
        else None.
Proof.
  intros H. destruct (adminLogin_fulfilled _ _ _ _ H) as [Hd Hc].
  split; [done|]. rewrite Hc. split; [done|].
  intros k r Hr. destruct (step_sent _ _ _ Hr) as (cfg & Hcfg & ->).
  unfold requestInterceptor. simpl. by destruct (truthy (Types.token d)).
Qed.

Lemma rethrow_plain {T R} prefix (e : thrown (ApiResponse T)) (e' : thrown (ApiResponse T)) :
  @rethrow T R prefix e = Rejected e' →
  ∃ msg, e' = Error msg
         ∧ ∀ err, e = AxiosErr err →
             msg = prefix ++ or_else (responseMessage err) (error_message err).
Proof.
  destruct e as [err|m]; simpl; intros [= <-].
  - eexists. split; [done|]. by intros ? [= <-].
  - eexists. split; [done|]. done.
Qed.

(** X2. What [adminLogin], [getConfigurations] and
    [updateConfigurations] throw is a plain [Error], never the
    [AxiosError] that holds the reply; when axios rejected the request,
    the message is the method's prefix followed by the reply's
    [message] or, without one, by axios' own message. *)
Theorem rejections_are_plain_errors :
  (∀ c req w e, (adminLogin c req w).2 = Rejected e →
     ∃ msg, e = Error msg
            ∧ ∀ err, settle w = Rejected (AxiosErr err) →
                msg = msgLoginFailedPrefix
                      ++ or_else (responseMessage err) (error_message err))
  ∧ (∀ c w e, (getConfigurations c w).2 = Rejected e →
     ∃ msg, e = Error msg
            ∧ ∀ err, settle w = Rejected (AxiosErr err) →
                msg = msgGetConfigFailedPrefix
                      ++ or_else (responseMessage err) (error_message err))
  ∧ (∀ c req w e, (updateConfigurations c req w).2 = Rejected e →
     ∃ msg, e = Error msg
            ∧ ∀ err, settle w = Rejected (AxiosErr err) →
                msg = msgUpdateFailedPrefix
                      ++ or_else (responseMessage err) (error_message err)).
Proof.
  split; [|split].
  - intros c req w e. unfold adminLogin.
    pose proof (request_outcome c (post "/api/admin/login" (LoginPayload req)) w) as Ho.
    destruct (request _ _ _) as [[c' sent] r]. simpl in *. subst r.
    destruct (settle w) as [r|e0]; simpl.
    + unfold unwrap. destruct (status (body r)), (data (body r)); simpl; try done;
        intros [= <-]; eexists; split; done.
    + intros H. destruct (rethrow_plain _ _ _ H) as (msg & -> & Hm).
      exists msg. split; [done|]. intros err [= ->]. by apply Hm.
  - intros c w e. unfold getConfigurations.
    pose proof (request_outcome c (get "/api/admin/settings") w) as Ho.
    destruct (request _ _ _) as [[c' sent] r]. simpl in *. subst r.
    destruct (settle w) as [r|e0]; simpl.
    + unfold unwrap. destruct (status (body r)), (data (body r)); simpl; try done;
        intros [= <-]; eexists; split; done.
    + intros H. destruct (rethrow_plain _ _ _ H) as (msg & -> & Hm).
      exists msg. split; [done|]. intros err [= ->]. by apply Hm.
  - intros c req w e. unfold updateConfigurations.
    pose proof (request_outcome c (post "/api/admin/settings" (UpdatePayload req)) w) as Ho.
    destruct (request _ _ _) as [[c' sent] r]. simpl in *. subst r.
    destruct (settle w) as [r|e0]; simpl.
    + destruct (status (body r)); simpl; try done.
      intros [= <-]; eexists; split; done.
    + intros H. destruct (rethrow_plain _ _ _ H) as (msg & -> & Hm).
      exists msg. split; [done|]. intros err [= ->]. by apply Hm.
Qed.

Lemma step_keeps_token c k :
  keepsToken k = true → token (step c k).1 = token c.
Proof.
  unfold keepsToken. rewrite !andb_true_iff, !negb_true_iff.
  intros [[H401 Hset] Hk]. rewrite (step_token c k Hset), H401. by destruct k.
Qed.

(** X3. A stored token that is not empty stays in place through every
    call that is not answered 401, does not reach [setToken] and is not
    [logout], and each request of those calls carries it as
    [Bearer <token>]. *)
Theorem token_persists ks : ∀ c t,
  token c = Some t → t ≠ [] →
  Forall (λ k, keepsToken k = true) ks →
  token (run c ks).1 = Some t
  ∧ Forall (λ r, Authorization r = Some (lit "Bearer " ++ t)) (run c ks).2.
Proof.
  induction ks as [|k ks IH]; intros c t Hc Ht Hks; simpl.
  - by split.
  - inversion Hks as [|?? Hk Hks']; subst.
    pose proof (step_keeps_token c k Hk) as Htok.
    pose proof (step_sent c k) as Hs.
    destruct (step c k) as [c' r]. simpl in *.
    rewrite Hc in Htok.
    destruct (IH c' t Htok Ht Hks') as [IH1 IH2].
    destruct (run c' ks) as [c'' rs]. simpl in *. split; [done|].
    apply Forall_app. split; [|done].
    destruct r as [r|]; simpl; [|done].
    apply Forall_singleton.
    destruct (Hs r eq_refl) as (cfg & Hcfg & ->).
    by apply requestInterceptor_with_token.
Qed.

(** X4. [logout] sends no request and leaves the client as
    [clearToken] does; after it, and as long as nothing calls
    [setToken], the token stays [null] and no request carries an
    [Authorization] header. *)
Theorem logout_forgets_token c ks :
  Forall (λ k, callsSetToken k = false) ks →
  step c Logout = (clearToken c, None)
  ∧ token (run c (Logout :: ks)).1 = None
  ∧ Forall (λ r, Authorization r = None) (run c (Logout :: ks)).2.
Proof.
  intros Hks. split; [done|].
  destruct (run_without_token ks (logout c) eq_refl Hks) as [H1 H2].
  simpl. destruct (run (logout c) ks) as [c' rs]. done.
Qed.

(** X5. [updateConfigurations] resolves exactly when the request
    resolved with a reply whose [status] is ['success']; unlike the
    other methods it does not ask for a [data] payload. *)
Theorem updateConfigurations_outcome c req w :
  (updateConfigurations c req w).2 = Fulfilled tt
  ↔ ∃ response, settle w = Fulfilled response ∧ status (body response) = success.
Proof.
  unfold updateConfigurations.
  pose proof (request_outcome c (post "/api/admin/settings" (UpdatePayload req)) w) as Ho.
  destruct (request _ _ _) as [[c' sent] r]. simpl in *. subst r.
  destruct (settle w) as [r|e]; simpl.
  - destruct (status (body r)) eqn:Hst; simpl.
    + split; [|done]. intros _. by exists r.
    + split; [done|]. intros (r' & [= <-] & Hs). congruence.
  - split.
    + by destruct e.
    + by intros (r' & ? & _).
Qed.

(** X6. [testConnection] returns [true] exactly when the health check
    was answered with a status from 200 to 299, whatever the body; the
    request is a GET to [/api/health] that passes the request
    interceptor, and an answer of 401 clears the token as on any other
    request. *)
Theorem testConnection_reachable c w :
  ((testConnection c w).2 = true
   ↔ ∃ st b, w = HttpReply st b ∧ (200 ≤ st < 300)%Z)
  ∧ (testConnection c w).1.2 = requestInterceptor c (get "/api/health")
  ∧ token (testConnection c w).1.1 = if is401 w then None else token c.
Proof.
  pose proof (testConnection_request c w) as Hr.
  pose proof (request_sent c (get "/api/health") w) as Hs.
  pose proof (request_token c (get "/api/health") w) as Ht.
  pose proof (request_outcome c (get "/api/health") w) as Ho.
  unfold testConnection in *.
  destruct (request _ _ _) as [[c' sent] r]. simpl in *. subst r.
  split; [|by split].
  destruct w as [st b|m|m]; simpl.
  - unfold validateStatus. destruct (200 <=? st)%Z eqn:H1, (st <? 300)%Z eqn:H2; simpl.
    + split; [|done]. intros _. exists st, b. split; [done|]. lia.
    + split; [done|]. intros (st' & b' & [= <- <-] & ?). lia.
    + split; [done|]. intros (st' & b' & [= <- <-] & ?). lia.
    + split; [done|]. intros (st' & b' & [= <- <-] & ?). lia.
  - split; [done|]. by intros (? & ? & ? & _).
  - split; [done|]. by intros (? & ? & ? & _).
Qed.

Lemma callsSetToken_offered k :
  callsSetToken k = true → ∃ t, offered k = Some t.
Proof.
  destruct k as [req w|req w|w|req w|w|t|]; simpl; try done.
  - unfold delivered. destruct (settle w) as [r|e]; [|done].
    destruct (status (body r)), (data (body r)); try done. eauto.
  - eauto.
Qed.

(** The token after a call: none, the one before, or the one the call
    offered. *)
Lemma step_token_cases c k :
  token (step c k).1 = None
  ∨ token (step c k).1 = token c
  ∨ (∃ t, offered k = Some t ∧ token (step c k).1 = Some t).
Proof.
  destruct (callsSetToken k) eqn:Hk.
  - right. right. destruct k as [req w|req w|w|req w|w|t|]; simpl in *; try done.
    + unfold delivered. destruct (adminLogin c req w) as [[c' r] res] eqn:Hl.
      pose proof (adminLogin_fulfilled c req w) as Hf. rewrite Hl in Hf. simpl in *.
      destruct (settle w) as [resp|e] eqn:Hs; [|done].
      destruct (status (body resp)) eqn:Hst, (data (body resp)) as [d|] eqn:Hd; try done.
      assert (res = Fulfilled d) as ->.
      { unfold adminLogin in Hl.
        pose proof (request_outcome c (post "/api/admin/login" (LoginPayload req)) w) as Ho.
        destruct (request _ _ _) as [[c0 s0] r0]. simpl in Ho. subst r0.
        rewrite Hs in Hl. unfold unwrap in Hl. rewrite Hst, Hd in Hl.
        by injection Hl as _ _ <-. }
      destruct (Hf d eq_refl) as [_ ->]. exists (Types.token d). done.
    + eauto.
  - rewrite (step_token c k Hk). destruct (answered401 k); [auto|].
    destruct k; auto.
Qed.

Lemma run_cons_client c k ks :
  (run c (k :: ks)).1 = (run (step c k).1 ks).1.
Proof.
  cbn [run]. destruct (step c k) as [c' r0]. cbn [fst].
  by destruct (run c' ks).
Qed.

(** X27. Every [Authorization] header the client sends is [Bearer]
    followed by a token it was given: the token it started with, or
    the token that an earlier call of the sequence handed to
    [setToken], be it a direct call or a login that succeeded. *)
Theorem bearer_provenance ks : ∀ c r,
  r ∈ (run c ks).2 →
  Authorization r = None
  ∨ ∃ t, Authorization r = Some (lit "Bearer " ++ t)
         ∧ (token c = Some t
            ∨ ∃ before k after,
                ks = before ++ k :: after
                ∧ offered k = Some t
                ∧ r ∈ (run (step (run c before).1 k).1 after).2).
Proof.
  induction ks as [|k ks IH]; intros c r.
  - by intros ?%elem_of_nil.
  - pose proof (step_sent c k) as Hs.
    pose proof (step_token_cases c k) as Ht.
    pose proof (λ before, run_cons_client c k before) as Hrun.
    cbn [run]. destruct (step c k) as [c' r0] eqn:Hstep. cbn [fst snd] in *.
    specialize (IH c'). destruct (run c' ks) as [c'' rs] eqn:Hks. cbn [fst snd] in *.
    intros [Hr|Hr]%elem_of_app.
    + destruct r0 as [r0|]; simpl in Hr; [|by apply elem_of_nil in Hr].
      apply list_elem_of_singleton in Hr as ->.
      destruct (Hs r0 eq_refl) as (cfg & Hcfg & ->).
      unfold requestInterceptor. destruct (token c) as [t|]; [|auto].
      destruct (truthy t); [|auto]. right. exists t. simpl. auto.
    + destruct (IH r Hr) as [H|(t & Ha & [Hc|(before & k' & after & -> & Ho & Hin)])];
        [auto|..].
      * right. exists t. split; [done|].
        destruct Ht as [Ht|[Ht|(t' & Ho & Ht)]]; [congruence| |].
        -- left. congruence.
        -- right. exists [], k, ks. split; [done|]. split; [congruence|].
           cbn [run fst]. rewrite Hstep. cbn [fst]. by rewrite Hks.
      * right. exists t. split; [done|]. right.
        exists (k :: before), k', after. split; [done|]. split; [done|].
        by rewrite Hrun.
Qed.

End ClientFacts.

(** ** The page *)

Module PageFacts.
Import JS Types Api SearchForm ApiFacts TrimFacts Page.

(** What [getTopProducts] hands back, read off the reply. *)
Lemma getTopProducts_result c req w :
  (getTopProducts c req w).2
  = match delivered w with
    | Some d => Fulfilled d
    | None => Rejected (Error (failureText w))
    end.
Proof.
  unfold getTopProducts, delivered.
  pose proof (request_outcome c (post "/api/get-top3" (SearchPayload req)) w) as Ho.
  destruct (request _ _ _) as [[c' sent] r]. simpl in *. subst r.
  destruct w as [st b|m|m]; simpl; [|done..].
  destruct (validateStatus st); simpl; [|done].
  unfold unwrap. simpl. by destruct (status b), (data b).
Qed.

(** The shape of [handleSubmit]'s result for a keyword that is not
    blank. *)
Lemma handleSubmit_unfold w u :
  trim (keyword u) ≠ [] →
  handleSubmit w u
  = let call := getTopProducts (apiClient u) {| Types.keyword := trim (keyword u) |} w in
    let u1 := called call.1.1 call.1.2 (onLoadingChange true (setIsSubmitting true u)) in
    let u2 :=
      match call.2 with
      | Fulfilled results =>
          toast (ToastSuccess (if cached results then msgFromCache else msgFresh))
                (onSearch results u1)
      | Rejected e => toast (ToastError (errorMessage e)) (consoleError e u1)
      end in
    onLoadingChange false (setIsSubmitting false u2).
Proof.
  intros H. unfold handleSubmit. cbn [keyword setIsSubmitting onLoadingChange apiClient].
  destruct (trim (keyword u)) as [|a s] eqn:Ht; [done|]. cbn [truthy negb].
  destruct (getTopProducts _ _ _) as [[c r] res]. cbn [fst snd].
  destruct res as [v|e]; [|done]. by destruct (cached v).
Qed.

(** X7. A submission with a keyword that is not blank whose reply
    delivers no payload: one error toast is added, with the text of the
    [Error] that [getTopProducts] threw, that error is logged, the
    results on display, [hasSearched] and the keyword stay as they
    were, and both loading flags are off again. *)
Theorem handleSubmit_failure w u :
  trim (keyword u) ≠ [] → delivered w = None →
  toasts (handleSubmit w u) = toasts u ++ [ToastError (failureText w)]
  ∧ console (handleSubmit w u) = console u ++ [Error (failureText w)]
  ∧ searchResults (handleSubmit w u) = searchResults u
  ∧ hasSearched (handleSubmit w u) = hasSearched u
  ∧ keyword (handleSubmit w u) = keyword u
  ∧ isLoading (handleSubmit w u) = false
  ∧ isSubmitting (handleSubmit w u) = false.
Proof.
  intros Hk Hd. rewrite (handleSubmit_unfold w u Hk). cbv zeta.
  rewrite getTopProducts_result, Hd. done.
Qed.

(** X8. A submission with a keyword that is not blank whose reply
    delivers [d]: the page holds [d] as its results and has searched,
    one success toast is added, whose text says whether [d] came from
    the cache, nothing is logged, the keyword stays as typed, and
    both loading flags are off again. *)
Theorem handleSubmit_success w u d :
  trim (keyword u) ≠ [] → delivered w = Some d →
  searchResults (handleSubmit w u) = Some d
  ∧ hasSearched (handleSubmit w u) = true
  ∧ toasts (handleSubmit w u)
    = toasts u ++ [ToastSuccess (if cached d then msgFromCache else msgFresh)]
  ∧ console (handleSubmit w u) = console u
  ∧ keyword (handleSubmit w u) = keyword u
  ∧ isLoading (handleSubmit w u) = false
  ∧ isSubmitting (handleSubmit w u) = false.
Proof.
  intros Hk Hd. rewrite (handleSubmit_unfold w u Hk). cbv zeta.
  rewrite getTopProducts_result, Hd. done.
Qed.

Lemma handleSubmit_blank w u :
  trim (keyword u) = [] → handleSubmit w u = toast (ToastError msgEnterKeyword) u.
Proof. intros H. unfold handleSubmit. by rewrite H. Qed.

Lemma handleSubmit_settled w u : settled u → settled (handleSubmit w u).
Proof.
  intros (Hl & Hs & Hr).
  destruct (trim (keyword u)) as [|a s] eqn:Ht.
  - by rewrite handleSubmit_blank.
  - rewrite handleSubmit_unfold by by rewrite Ht. cbv zeta.
    rewrite getTopProducts_result.
    destruct (delivered w) as [d|]; (split; [done|]); (split; [done|]); simpl.
    + split; eauto.
    + done.
Qed.

Lemma act_settled u a : settled u → settled (act u a).
Proof.
  intros Hu. pose proof Hu as (Hl & Hs & Hr).
  destruct a as [v|key w|w|i|]; simpl.
  - by rewrite Hs.
  - rewrite Hs. unfold handleKeyDown. case_bool_decide; [|done].
    by apply handleSubmit_settled.
  - destruct (submitDisabled u); [done|]. by apply handleSubmit_settled.
  - rewrite Hs. by destruct (suggestions !! i).
  - destruct (resultsShown u); [|done].
    split; [done|]. split; [done|]. simpl. split; [done|]. by intros [? [=]].
Qed.

Lemma visit_settled actions : ∀ u, settled u → settled (visit u actions).
Proof.
  induction actions as [|a actions IH]; intros u Hu; [done|].
  apply IH. by apply act_settled.
Qed.

Lemma initial_settled : settled initial.
Proof. split; [done|]. split; [done|]. split; [done|]. by intros [? [=]]. Qed.

(** X9. From the first rendering on, after any sequence of actions
    (each submission having settled), nothing is loading or submitting,
    [hasSearched] holds exactly when there are results, the spinner is
    not shown, and exactly one of the hero section and the results is
    on screen. *)
Theorem page_views_exclusive actions :
  let u := visit initial actions in
  settled u
  ∧ spinnerShown u = false
  ∧ heroShown u = negb (resultsShown u).
Proof.
  cbv zeta. pose proof (visit_settled actions initial initial_settled) as Hu.
  split; [done|]. destruct Hu as (Hl & Hs & Hr).
  unfold spinnerShown, heroShown, resultsShown. rewrite Hl. split; [done|].
  simpl. rewrite andb_true_r. case_bool_decide as H.
  - apply Hr in H. by rewrite H.
  - destruct (hasSearched _); [|done]. destruct H. by apply Hr.
Qed.

(** The request [handleSubmit] sends and the client it leaves. *)
Lemma handleSubmit_request w u :
  trim (keyword u) ≠ [] →
  sent (handleSubmit w u)
  = sent u ++ [requestInterceptor (apiClient u)
                 (post "/api/get-top3"
                    (SearchPayload {| Types.keyword := trim (keyword u) |}))]
  ∧ token (apiClient (handleSubmit w u))
    = if Session.is401 w then None else token (apiClient u).
Proof.
  intros Hk. rewrite (handleSubmit_unfold w u Hk). cbv zeta.
  set (req := {| Types.keyword := trim (keyword u) |}).
  pose proof (getTopProducts_request (apiClient u) req w) as Hr.
  pose proof (request_sent (apiClient u) (post "/api/get-top3" (SearchPayload req)) w) as Hs.
  pose proof (request_token (apiClient u) (post "/api/get-top3" (SearchPayload req)) w) as Ht.
  destruct (getTopProducts _ _ _) as [[c r] res].
  destruct (request _ _ _) as [[c' r'] res']. simpl in *.
  injection Hr as -> ->. subst r'. rewrite <- Ht.
  by destruct res as [v|e].
Qed.

Lemma handleSubmit_anonymous w u : anonymous u → anonymous (handleSubmit w u).
Proof.
  intros [Ht Hs].
  destruct (trim (keyword u)) as [|a s] eqn:Hk.
  - by rewrite handleSubmit_blank.
  - assert (trim (keyword u) ≠ []) as Hne by by rewrite Hk.
    destruct (handleSubmit_request w u Hne) as [H1 H2].
    split.
    + rewrite H2, Ht. by destruct (Session.is401 w).
    + rewrite H1. apply Forall_app. split; [done|]. apply Forall_singleton.
      rewrite requestInterceptor_no_token by done.
      repeat split. exists (trim (keyword u)). split; [done|]. split; [done|].
      apply trim_idemp.
Qed.

Lemma act_anonymous u a : anonymous u → anonymous (act u a).
Proof.
  intros Hu. destruct a as [v|key w|w|i|]; simpl.
  - by destruct (isSubmitting u).
  - destruct (isSubmitting u); [done|]. unfold handleKeyDown.
    case_bool_decide; [|done]. by apply handleSubmit_anonymous.
  - destruct (submitDisabled u); [done|]. by apply handleSubmit_anonymous.
  - destruct (isSubmitting u); [done|]. by destruct (suggestions !! i).
  - by destruct (resultsShown u).
Qed.

(** X10. During a visit the client never comes to hold a token, and
    every request the page sends is a POST to [/api/get-top3] without
    an [Authorization] header whose keyword is not empty and has no
    blank margin. *)
Theorem page_sends_search_requests actions :
  token (apiClient (visit initial actions)) = None
  ∧ Forall searchRequest (sent (visit initial actions)).
Proof.
  assert (∀ u, anonymous u → anonymous (visit u actions)) as H.
  { induction actions as [|a actions IH]; intros u Hu; [done|].
    apply IH. by apply act_anonymous. }
  apply H. by split.
Qed.

Lemma handleSubmit_results w u d :
  searchResults (handleSubmit w u) = Some d →
  searchResults u = Some d ∨ delivered w = Some d.
Proof.
  destruct (trim (keyword u)) as [|a s] eqn:Hk.
  - rewrite handleSubmit_blank by done. auto.
  - rewrite handleSubmit_unfold by by rewrite Hk. cbv zeta.
    rewrite getTopProducts_result.
    destruct (delivered w) as [d'|]; simpl; auto.
Qed.

Lemma act_results u a d :
  searchResults (act u a) = Some d →
  searchResults u = Some d ∨ ∃ w, w ∈ replies [a] ∧ delivered w = Some d.
Proof.
  destruct a as [v|key w|w|i|]; simpl.
  - destruct (isSubmitting u); auto.
  - destruct (isSubmitting u); [auto|]. unfold handleKeyDown.
    case_bool_decide; [|auto]. intros [Hr|Hr]%handleSubmit_results; [auto|].
    right. exists w. split; [|done]. by apply list_elem_of_singleton.
  - destruct (submitDisabled u); [auto|]. intros [Hr|Hr]%handleSubmit_results; [auto|].
    right. exists w. split; [|done]. by apply list_elem_of_singleton.
  - destruct (isSubmitting u); [auto|]. destruct (suggestions !! i); auto.
  - destruct (resultsShown u); [done|auto].
Qed.

Lemma replies_app l1 l2 : replies (l1 ++ l2) = replies l1 ++ replies l2.
Proof. unfold replies. apply omap_app. Qed.

(** X11. The results on display are the payload that a reply received
    during the visit delivered. *)
Theorem page_shows_delivered_results actions d :
  searchResults (visit initial actions) = Some d →
  ∃ w, w ∈ replies actions ∧ delivered w = Some d.
Proof.
  assert (∀ u, searchResults (visit u actions) = Some d →
            searchResults u = Some d
            ∨ ∃ w, w ∈ replies actions ∧ delivered w = Some d) as H.
  { induction actions as [|a actions IH]; intros u Hu; [auto|].
    change (a :: actions) with ([a] ++ actions). rewrite replies_app.
    destruct (IH _ Hu) as [Ha|(w & Hw & Hd)].
    - destruct (act_results _ _ _ Ha) as [H'|(w & Hw & Hd)]; [auto|].
      right. exists w. split; [|done]. apply elem_of_app. auto.
    - right. exists w. split; [|done]. apply elem_of_app. auto. }
  intros Hv. by destruct (H initial Hv) as [?|?].
Qed.

End PageFacts.

(** ** Ratings, truncated text and price strings *)

Module FormatFacts.
Import JS Utils TrimFacts NumberFacts UtilsFacts.

Example truncateText_examples :
  truncateText (lit "wireless earbuds") (ofZ 8) = lit "wireless..."
  ∧ truncateText (lit "wireless") (ofZ 8) = lit "wireless"
  ∧ truncateText (lit "wireless") (ofZ 7) = lit "wireles..."
  ∧ truncateText (lit "wireless") (parseFloat (lit "2.9")) = lit "wi..."
  ∧ truncateText (lit "wireless") (ofZ (-3)) = lit "wirel..."
  ∧ truncateText (lit "wireless") (ofZ (-30)) = lit "..."
  ∧ truncateText (lit "wireless") S754_nan = lit "..."
  ∧ truncateText (lit "wireless") (S754_infinity false) = lit "wireless"
  ∧ truncateText [] (ofZ (-1)) = lit "..."
  ∧ formatRating (Some (parseFloat (lit "4.95"))) = lit "5.0" ++ star
  ∧ formatRating (Some (parseFloat (lit "4.25"))) = lit "4.3" ++ star
  ∧ formatRating (Some (parseFloat (lit "0.04"))) = lit "0.0" ++ star
  ∧ formatRating (Some (ofZ 5)) = lit "5.0" ++ star.
Proof. repeat split; by vm_compute. Qed.

Lemma split_last_one {A} (l : list A) :
  2 ≤ length l →
  ∃ ip d, l = ip ++ [d] ∧ ip ≠ []
          ∧ take (length l - 1) l = ip ∧ drop (length l - 1) l = [d].
Proof.
  intros Hl.
  pose proof (take_drop (length l - 1) l) as Hsplit.
  pose proof (length_drop l (length l - 1)) as Hd.
  pose proof (length_take l (length l - 1)) as Ht.
  destruct (drop (length l - 1) l) as [|d [|d2 rest]] eqn:Hdrop;
    simpl in Hd; try lia.
  exists (take (length l - 1) l), d. repeat split; try done.
  intros Hnil. rewrite Hnil in Ht. simpl in Ht. lia.
Qed.

Lemma toFixed1_finite m e :
  atLeast1e21 m e = false →
  oneDecimal (scaledNearest 1 m e) (toFixed 1 (S754_finite false m e)).
Proof.
  intros Hlt. unfold toFixed. rewrite Hlt. simpl.
  set (ds := decimal (scaledNearest 1 m e)).
  set (ds' := zeros (2 - length ds) ++ ds).
  assert (2 ≤ length ds') as Hlen.
  { unfold ds', zeros. rewrite length_app, length_replicate. lia. }
  destruct (split_last_one ds' Hlen) as (ip & d & Hds' & Hip & Htake & Hdrop).
  exists ip, d. rewrite Htake, Hdrop.
  replace (ip ++ [d]) with ds' by done.
  repeat split; try done.
  - unfold ds'. apply Forall_app. split; [apply zeros_digits|apply decimal_digits].
  - unfold ds'. rewrite digitsValue_zeros. apply digitsValue_decimal.
Qed.

(** X12. [formatRating] maps an absent rating, [0] and [NaN] to the
    placeholder; for a finite positive rating below 10^21 it returns
    the rating in tenths, rounded to the nearest one (upwards from the
    middle), with exactly one decimal place, followed by a space and
    the star. *)
Theorem formatRating_one_decimal :
  (formatRating None = noRating
   ∧ formatRating (Some (ofZ 0)) = noRating
   ∧ formatRating (Some S754_nan) = noRating)
  ∧ (∀ m e, atLeast1e21 m e = false →
       (∃ t, formatRating (Some (S754_finite false m e)) = t ++ star
             ∧ oneDecimal (scaledNearest 1 m e) t)
       ∧ (2 * Npos (ratio m e).2 * scaledNearest 1 m e
          ≤ 2 * Npos (ratio m e).1 * 10 + Npos (ratio m e).2
          < 2 * Npos (ratio m e).2 * (scaledNearest 1 m e + 1))%N).
Proof.
  split; [done|]. intros m e Hlt. split.
  - exists (toFixed 1 (S754_finite false m e)). split; [done|].
    by apply toFixed1_finite.
  - apply (scaledNearest_nearest 1 m e).
Qed.

(** The position [slice(0, x)] cuts at when [x] is below the length. *)
Lemma relativeIndex_below n x :
  lengthLe n x = false →
  relativeIndex n (toIntegerOrInfinity x) ≤ n
  ∧ (0 < n → relativeIndex n (toIntegerOrInfinity x) < n)
  ∧ match toIntegerOrInfinity x with
    | Integer z =>
        relativeIndex n (toIntegerOrInfinity x)
        = if (z <? 0)%Z then n - Z.to_nat (- z) else Z.to_nat z
    | NegInfinity => relativeIndex n (toIntegerOrInfinity x) = 0
    | PosInfinity => False
    end.
Proof.
  destruct x as [s|[]| |[] m e]; simpl; try done.
  - intros _. split; [lia|]. split; lia.
  - intros _. split; [lia|]. split; [lia|done].
  - intros _. split; [lia|]. split; lia.
  - intros _. destruct (ratio m e) as [p q]. simpl.
    assert (0 ≤ Z.pos p `div` Z.pos q)%Z as Hpos by (apply Z.div_pos; lia).
    generalize dependent (Z.pos p `div` Z.pos q)%Z. intros t Ht.
    destruct (- t <? 0)%Z eqn:Hz; lia.
  - destruct (ratio m e) as [p q]. intros Hlt%N.leb_gt. simpl.
    assert (0 ≤ Z.pos p `div` Z.pos q < Z.of_nat n)%Z as Hq.
    { split; [apply Z.div_pos; lia|]. apply Z.div_lt_upper_bound; lia. }
    generalize dependent (Z.pos p `div` Z.pos q)%Z. intros t Ht.
    rewrite (proj2 (Z.ltb_ge t 0)) by lia. lia.
Qed.

(** X13. [truncateText] returns the text itself when its length is at
    most [maxLength]. Otherwise it returns the first [k] code units
    followed by three dots, [k + 3] code units in all, where [k] is
    [maxLength] truncated to an integer when that is not negative (so
    the result is three code units longer than [maxLength] allows), and
    the length less the magnitude of that integer, or 0, when it is
    negative; a text that is not empty always loses at least one code
    unit. *)
Theorem truncateText_cut text maxLength :
  (lengthLe (length text) maxLength = true → truncateText text maxLength = text)
  ∧ (lengthLe (length text) maxLength = false →
     ∃ k, truncateText text maxLength = take k text ++ lit "..."
          ∧ length (truncateText text maxLength) = k + 3
          ∧ (text ≠ [] → k < length text)
          ∧ match toIntegerOrInfinity maxLength with
            | Integer z =>
                k = if (z <? 0)%Z then length text - Z.to_nat (- z) else Z.to_nat z
            | NegInfinity => k = 0
            | PosInfinity => False
            end).
Proof.
  unfold truncateText. split; [by intros ->|]. intros Hle. rewrite Hle.
  destruct (relativeIndex_below _ _ Hle) as (Hk & Hlt & Hz).
  exists (relativeIndex (length text) (toIntegerOrInfinity maxLength)).
  unfold slice. change (toIntegerOrInfinity (ofZ 0)) with (Integer 0).
  change (relativeIndex (length text) (Integer 0)) with (Z.to_nat (Z.min 0 (Z.of_nat (length text)))).
  rewrite Z.min_l by lia. change (Z.to_nat 0) with 0.
  rewrite Nat.sub_0_r, drop_0.
  split; [done|]. split.
  - rewrite length_app, length_take. simpl. lia.
  - split.
    + intros Hne. apply Hlt. destruct text; [done|simpl; lia].
    + destruct (toIntegerOrInfinity maxLength); done.
Qed.

Lemma firstNumber_prefix p s :
  Forall (λ c, isDigitOrComma c = false) p → firstNumber (p ++ s) = firstNumber s.
Proof.
  intros Hp. unfold firstNumber. rewrite dropWhile_app_all; [done|].
  eapply Forall_impl; [exact Hp|]. by intros c ->.
Qed.

(** X14. Whatever stands before the first digit or comma of a price
    string plays no part: a minus sign or a currency symbol in front of
    the number is dropped, and the result starts with the yen sign. *)
Theorem formatPrice_ignores_prefix p s :
  Forall (λ c, isDigitOrComma c = false) p →
  firstNumber s ≠ None →
  formatPrice (Some (PStr (p ++ s))) = formatPrice (Some (PStr s))
  ∧ ∃ t, formatPrice (Some (PStr (p ++ s))) = yen ++ t.
Proof.
  intros Hp Hs.
  assert (s ≠ []) as Hne by (by intros ->).
  assert (p ++ s ≠ []) as Hne' by (by destruct p, s).
  rewrite !formatPrice_string by done. rewrite firstNumber_prefix by done.
  destruct (firstNumber s) as [[ip fp]|]; [eauto|done].
Qed.

Lemma dropWhile_id {A} (f : A → bool) s :
  match s with c :: _ => f c = false | [] => True end → dropWhile f s = s.
Proof. destruct s as [|c s]; [done|]. simpl. by intros ->. Qed.

Lemma commas_run n : Forall (λ c, isDigitOrComma c = true) (replicate n 44%N).
Proof. induction n; by constructor. Qed.

Lemma commas_no_digit n : filter (λ c, isDigit c = true) (replicate n 44%N) = [].
Proof. induction n; [done|]. simpl. by rewrite filter_cons_False by done. Qed.

(** X15. A price string whose first run of digits and commas consists
    of commas only, and is not followed by a decimal point, is shown
    as the yen sign followed by [NaN]. *)
Theorem formatPrice_comma_run p n rest :
  Forall (λ c, isDigitOrComma c = false) p →
  0 < n →
  match rest with
  | c :: _ => isDigitOrComma c = false ∧ isDot c = false
  | [] => True
  end →
  firstNumber (p ++ replicate n 44%N ++ rest) = Some ([], [])
  ∧ formatPrice (Some (PStr (p ++ replicate n 44%N ++ rest))) = yen ++ lit "NaN".
Proof.
  intros Hp Hn Hrest.
  assert (firstNumber (p ++ replicate n 44%N ++ rest) = Some ([], [])) as Hf.
  { rewrite firstNumber_prefix by done. unfold firstNumber.
    rewrite dropWhile_id by (by destruct n; [lia|]).
    destruct (replicate n 44%N ++ rest) as [|c0 l0] eqn:Hrun.
    { destruct n; [lia|done]. }
    rewrite <- Hrun. clear Hrun c0 l0.
    rewrite (dropWhile_app_all _ _ _ (commas_run n)).
    rewrite (takeWhile_app_all _ _ _ (commas_run n)).
    assert (dropWhile isDigitOrComma rest = rest) as ->.
    { apply dropWhile_id. destruct rest; [done|]. by destruct Hrest. }
    assert (takeWhile isDigitOrComma rest = []) as ->.
    { destruct rest as [|c t]; [done|]. simpl. by destruct Hrest as [-> _]. }
    rewrite app_nil_r, commas_no_digit.
    destruct rest as [|c t]; [done|]. by destruct Hrest as [_ ->]. }
  split; [done|].
  rewrite formatPrice_string, Hf; [done|].
  destruct p; [|done]. destruct n; [lia|done].
Qed.

End FormatFacts.

(** ** [debounce] *)

Module DebounceFacts.
Import JS Timers Debounce.

Section Facts.
Context {A : Type}.
Implicit Types (s : Debounced A) (evs : list (Event A)).

Lemma run_snoc wait s evs ev :
  run wait s (evs ++ [ev]) = s' ← run wait s evs; step wait s' ev.
Proof.
  revert s. induction evs as [|e evs IH]; intros s; simpl.
  - by destruct (step wait s ev).
  - destruct (step wait s e) as [s'|]; simpl; [apply IH|done].
Qed.

Lemma callArgs_app evs1 evs2 :
  callArgs (evs1 ++ evs2) = callArgs evs1 ++ callArgs evs2.
Proof. apply omap_app. Qed.

Lemma elapsed_app evs1 evs2 :
  elapsed (evs1 ++ evs2) = (elapsed evs1 + elapsed evs2)%Z.
Proof.
  induction evs1 as [|e evs1 IH]; simpl; [done|]. destruct e; lia.
Qed.

Lemma callArgs_quiet evs :
  Forall (λ ev, isCall ev = false) evs → callArgs evs = [].
Proof. induction 1 as [|[] evs H _ IH]; simpl; try done. Qed.

Lemma step_pending wait evs s ev s' :
  pendingAfter wait evs s → step wait s ev = Some s' →
  pendingAfter wait (evs ++ [ev]) s'.
Proof.
  intros Hinv Hstep. destruct ev as [args|ms|handle]; simpl in Hstep.
  - (* a call: the pending timer, if any, is replaced *)
    injection Hstep as <-. right.
    exists (nextHandle (host s)), args, evs, []. simpl.
    split; [by destruct (timeout s)|]. split.
    + destruct Hinv as [[He _]|(handle & a & before & since & Ht & Hm & _)].
      * assert (timers (clearTimeout (timeout s) (host s)) = ∅) as ->.
        { destruct (timeout s); simpl; [|done]. rewrite He. apply delete_empty. }
        assert (clock (clearTimeout (timeout s) (host s)) = clock (host s)) as ->
          by by destruct (timeout s).
        assert (nextHandle (clearTimeout (timeout s) (host s)) = nextHandle (host s)) as ->
          by by destruct (timeout s).
        rewrite insert_empty. f_equal. f_equal. lia.
      * rewrite Ht. simpl. rewrite Hm, delete_singleton_eq, insert_empty.
        f_equal. f_equal. lia.
    + split; [done|]. split; [done|].
      destruct Hinv as [[_ Hs]|(handle & a & before & since & _ & _ & -> & Hq & Hs)];
        [done|].
      rewrite callArgs_app. by apply sublist_inserts_r.
  - (* time passes *)
    injection Hstep as <-. simpl.
    destruct Hinv as [[He Hs]|(handle & a & before & since & Ht & Hm & -> & Hq & Hs)].
    + left. split; [done|]. rewrite callArgs_app, app_nil_r. done.
    + right. exists handle, a, before, (since ++ [Wait ms]). simpl.
      split; [done|]. split.
      * rewrite Hm, elapsed_app. simpl. f_equal. f_equal. lia.
      * split; [by rewrite <- app_assoc|]. split; [|done].
        apply Forall_app. split; [done|]. by constructor.
  - (* a timer runs: it is the pending one *)
    unfold expire in Hstep.
    destruct Hinv as [[He Hs]|(h0 & a & before & since & Ht & Hm & -> & Hq & Hs)].
    + by rewrite He, lookup_empty in Hstep.
    + rewrite Hm in Hstep.
      destruct (decide (h0 = handle)) as [->|Hne];
        [|by rewrite lookup_singleton_ne in Hstep].
      rewrite lookup_singleton_eq in Hstep. simpl in Hstep.
      destruct (_ <=? _)%Z; [|done]. simpl in Hstep. injection Hstep as <-.
      left. simpl. split; [by rewrite delete_singleton_eq|].
      rewrite !callArgs_app.
      change (callArgs (Call a :: since)) with (a :: callArgs since).
      rewrite (callArgs_quiet since Hq). change (callArgs [Expire handle]) with (@nil A).
      rewrite app_nil_r. by apply sublist_app.
Qed.

Lemma run_pending wait evs : ∀ s,
  run wait debounce evs = Some s → pendingAfter wait evs s.
Proof.
  induction evs as [|ev evs IH] using rev_ind; intros s.
  - intros [= <-]. left. by split.
  - rewrite run_snoc. destruct (run wait debounce evs) as [s0|]; [|done]. simpl.
    intros Hstep. eapply step_pending; [|done]. by apply IH.
Qed.

(** X16. When a timer of a debounced function runs [func], it runs it
    with the arguments of the latest call, no call was made since, and
    at least the delay has passed since that call. *)
Theorem debounce_trailing wait evs s handle s' :
  run wait debounce evs = Some s →
  step wait s (Expire handle) = Some s' →
  ∃ before args since,
    evs = before ++ Call args :: since
    ∧ Forall (λ ev, isCall ev = false) since
    ∧ (timerDelay wait ≤ elapsed since)%Z
    ∧ invoked s' = invoked s ++ [args].
Proof.
  intros Hrun Hstep. simpl in Hstep. unfold expire in Hstep.
  destruct (run_pending _ _ _ Hrun)
    as [[He _]|(h0 & a & before & since & Ht & Hm & -> & Hq & Hs)].
  - by rewrite He, lookup_empty in Hstep.
  - rewrite Hm in Hstep.
    destruct (decide (h0 = handle)) as [->|Hne];
      [|by rewrite lookup_singleton_ne in Hstep].
    rewrite lookup_singleton_eq in Hstep. simpl in Hstep.
    destruct (_ <=? _)%Z eqn:Hdue; [|done]. simpl in Hstep. injection Hstep as <-.
    exists before, a, since. repeat split; [done|]. apply Z.leb_le in Hdue. lia.
Qed.

(** X17. The arguments [func] has been run with are a subsequence of the
    arguments of the calls, in the same order: no call is served
    twice; and at most one timer is pending at any time. *)
Theorem debounce_invocations wait evs s :
  run wait debounce evs = Some s →
  invoked s `sublist_of` callArgs evs
  ∧ length (invoked s) ≤ length (callArgs evs)
  ∧ size (timers (host s)) ≤ 1.
Proof.
  intros Hrun.
  assert (invoked s `sublist_of` callArgs evs ∧ size (timers (host s)) ≤ 1) as [H1 H2].
  { destruct (run_pending _ _ _ Hrun)
      as [[He Hs]|(h0 & a & before & since & Ht & Hm & -> & Hq & Hs)].
    - split; [done|]. rewrite He, map_size_empty. lia.
    - split.
      + rewrite callArgs_app. by apply sublist_inserts_r.
      + rewrite Hm, map_size_singleton. lia. }
  split; [done|]. split; [|done]. by apply sublist_length.
Qed.

(** X18. The latest call is not lost: once the delay has passed without
    another call, its timer is due, and when it runs, [func] is run
    with that call's arguments and no timer is left. *)
Theorem debounce_last_call wait evs s args ms :
  run wait debounce evs = Some s →
  (timerDelay wait ≤ Z.of_N ms)%Z →
  ∃ handle s',
    run wait s [Call args; Wait ms; Expire handle] = Some s'
    ∧ invoked s' = invoked s ++ [args]
    ∧ timers (host s') = ∅.
Proof.
  intros Hrun Hms.
  destruct (step wait s (Call args)) as [s1|] eqn:H1; [|done].
  pose proof (step_pending _ _ _ _ _ (run_pending _ _ _ Hrun) H1) as Hinv.
  destruct Hinv as [[He _]|(h0 & a & before & since & Ht & Hm & Hevs & Hq & Hs)].
  { simpl in H1. injection H1 as <-. simpl in He.
    by apply insert_non_empty in He. }
  assert (since = [] ∧ a = args) as [-> ->].
  { destruct since as [|e since _] using rev_ind.
    - apply app_inj_tail in Hevs as [_ [= ->]]. done.
    - rewrite app_comm_cons, app_assoc in Hevs.
      apply app_inj_tail in Hevs as [_ <-].
      apply Forall_app in Hq as [_ Hq]. by inversion Hq. }
  exists h0. simpl in Hm. rewrite Z.sub_0_r in Hm.
  cbn [run]. rewrite H1. cbn [mbind option_bind step run].
  unfold expire. cbn [elapse timers clock host]. rewrite Hm, lookup_singleton_eq.
  rewrite (proj2 (Z.leb_le _ _)) by lia.
  eexists. split; [done|]. simpl. split.
  - simpl in H1. by injection H1 as <-.
  - by rewrite delete_singleton_eq.
Qed.

End Facts.
End DebounceFacts.

(** ** [throttle] *)

Module ThrottleFacts.
Import JS Timers Throttle.

Section Facts.
Context {A : Type}.
Implicit Types (s : Throttled A) (evs : list (Event A)).

Lemma step_armed limit s ev s' :
  armed s → step limit s ev = Some s' → armed s'.
Proof.
  unfold armed. destruct ev as [args r|ms|handle]; simpl.
  - destruct (inThrottle s) eqn:Hin.
    + intros Hs [= <-]. by rewrite Hin.
    + destruct r; intros Hs [= <-]; simpl; [|done].
      rewrite Hs, insert_empty. eauto.
  - intros Hs [= <-]. done.
  - unfold expire. destruct (inThrottle s).
    + intros (h & due & Hm). rewrite Hm.
      destruct (decide (h = handle)) as [->|Hne];
        [|by rewrite lookup_singleton_ne].
      rewrite lookup_singleton_eq.
      destruct (_ <=? _)%Z; [|done]. intros [= <-]. simpl.
      by rewrite delete_singleton_eq.
    + intros Hs. by rewrite Hs, lookup_empty.
Qed.

Lemma run_armed limit evs : ∀ s s',
  armed s → run limit s evs = Some s' → armed s'.
Proof.
  induction evs as [|ev evs IH]; intros s s' Hs; simpl.
  - by intros [= <-].
  - destruct (step limit s ev) as [s1|] eqn:H1; [|done]. simpl.
    apply IH. by eapply step_armed.
Qed.







(** X21. Once the limit has passed after a call that ran [func], the
    timer is due, and after it has run the next call runs [func]
    again. *)
Theorem throttle_reopens limit evs s a ms b returns :
  run limit throttle evs = Some s →
  inThrottle s = false →
  (timerDelay limit ≤ Z.of_N ms)%Z →
  ∃ handle s',
    run limit s [Call a true; Wait ms; Expire handle; Call b returns] = Some s'
    ∧ invoked s' = invoked s ++ [a; b].
Proof.
  intros Hrun Hopen Hms.
  assert (armed s) as Hs by (by eapply run_armed; [|exact Hrun]).
  unfold armed in Hs. rewrite Hopen in Hs.
  exists (nextHandle (host s)).
  cbn [run step]. rewrite Hopen. cbn [setTimeout mbind option_bind step].
  unfold expire. cbn [elapse timers clock host inThrottle].
  rewrite Hs, insert_empty, lookup_singleton_eq.
  rewrite (proj2 (Z.leb_le _ _)) by lia. cbn [mbind option_bind inThrottle].
  destruct returns; cbn [setTimeout run mbind option_bind invoked];
    eexists; (split; [done|]); simpl; by rewrite <- app_assoc.
Qed.

End Facts.
End ThrottleFacts.

(** ** [storage] *)

Module StorageFacts.
Import JS Storage.

Section Facts.
Variable parse : jsstr → option json.
Variable stringify : json → jsstr.
Variable accepts : gmap jsstr jsstr → jsstr → jsstr → bool.

(** X22. When nothing usable is stored under a key (no item, an empty
    item, or an item that does not parse), [storage.get] returns the
    default value if that is truthy and [null] otherwise: a default of
    [0], [false] or the empty string is never returned. *)
Theorem storage_get_default key d items :
  (items !! key = None ∨ items !! key = Some []
   ∨ ∃ item, items !! key = Some item ∧ parse item = None) →
  get parse key d (Browser items) = orNull d
  ∧ (∀ v, d = Some v → truthyValue v = false →
       get parse key d (Browser items) = JNull).
Proof.
  intros H.
  assert (get parse key d (Browser items) = orNull d) as Hg.
  { unfold get. destruct H as [->|[->|(item & -> & Hp)]]; [done..|].
    rewrite Hp. by destruct (truthy item). }
  split; [done|]. intros v -> Hv. rewrite Hg. simpl. by rewrite Hv.
Qed.

(** X23. After [storage.set] has stored a value, [storage.get] with the
    same key returns what the stored text parses to, and the items
    under every other key read as before. *)
Theorem storage_set_get key value v d items :
  accepts items key (stringify value) = true →
  stringify value ≠ [] →
  parse (stringify value) = Some v →
  get parse key d (set stringify accepts key value (Browser items)) = v
  ∧ ∀ key', key' ≠ key →
      get parse key' d (set stringify accepts key value (Browser items))
      = get parse key' d (Browser items).
Proof.
  intros Ha Hs Hp. unfold set. rewrite Ha. split.
  - unfold get. rewrite lookup_insert_eq.
    destruct (stringify value); [done|]. simpl. by rewrite Hp.
  - intros key' Hk. unfold get. by rewrite lookup_insert_ne.
Qed.

(** X24. After [storage.remove], [storage.get] with the same key returns
    the default value (or [null]), the items under every other key
    read as before, and a [storage.set] that the browser refuses
    leaves everything as it was. *)
Theorem storage_remove_get key d w :
  get parse key d (remove key w)
  = match w with NoWindow => JNull | Browser _ => orNull d end
  ∧ (∀ key', key' ≠ key →
       get parse key' d (remove key w) = get parse key' d w)
  ∧ (∀ value items, w = Browser items →
       accepts items key (stringify value) = false →
       set stringify accepts key value w = w).
Proof.
  split; [|split].
  - destruct w as [|items]; [done|]. unfold remove, get. by rewrite lookup_delete_eq.
  - intros key' Hk. destruct w as [|items]; [done|].
    unfold remove, get. by rewrite lookup_delete_ne.
  - intros value items -> Ha. unfold set. by rewrite Ha.
Qed.

End Facts.
End StorageFacts.

(** ** Copying and visiting a link *)

Module ClipboardFacts.
Import JS Timers SearchForm Clipboard.

(** X25. [copyToClipboard] always resolves; it resolves to [false]
    exactly when [writeText] failed and [execCommand] threw; the
    children of [document.body] are afterwards what they were; and the
    clipboard holds the text exactly when it did before, [writeText]
    succeeded, or [execCommand] reported a copy, so [true] is returned
    without a copy when [execCommand] returns [false]. *)
Theorem copyToClipboard_result text t :
  let t' := (copyToClipboard text t).1 in
  let r := (copyToClipboard text t).2 in
  (∃ b, r = Fulfilled b
        ∧ (b = false ↔ writeTextWorks t = false ∧ execCommand t = None))
  ∧ body t' = body t
  ∧ (clipboard t' = text
     ↔ clipboard t = text ∨ writeTextWorks t = true
       ∨ (writeTextWorks t = false ∧ execCommand t = Some true)).
Proof.
  unfold copyToClipboard. destruct (writeTextWorks t) eqn:Hw; simpl.
  - split; [exists true; split; [done|]; split; [done|by intros [? _]]|].
    split; [done|]. split; auto.
  - destruct (execCommand t) as [[]|] eqn:He; simpl.
    + split; [exists true; split; [done|]; split; [done|by intros [_ ?]]|].
      split; [apply removelast_last|]. split; auto.
    + split; [exists true; split; [done|]; split; [done|by intros [_ ?]]|].
      split; [apply removelast_last|].
      split; [auto|]. intros [?|[?|[_ ?]]]; done.
    + split; [exists false; split; [done|]; done|].
      split; [apply removelast_last|].
      split; [auto|]. intros [?|[?|[_ ?]]]; done.
Qed.

(** X26. [handleVisitLink] always shows the toast that says the link was
    copied, also when neither way of copying worked; it opens nothing
    at once, and starts the one timer that opens the link 500 ms
    later. *)
Theorem handleVisitLink_announces_copy url t :
  let t' := handleVisitLink url t in
  toasts t' = toasts t ++ [ToastSuccess msgCopied]
  ∧ opened t' = opened t
  ∧ timers (host t')
    = <[nextHandle (host t) := ((clock (host t) + 500)%Z, url)]> (timers (host t))
  ∧ (writeTextWorks t = false → execCommand t ≠ Some true →
     clipboard t' = clipboard t).
Proof.
  unfold handleVisitLink, copyToClipboard. destruct (writeTextWorks t) eqn:Hw; simpl.
  - done.
  - destruct (execCommand t) as [[]|] eqn:He; simpl; repeat split; try done.
Qed.

End ClipboardFacts.

(** ** The theorems at sample inputs *)

Module Witnesses.
Import JS Types Api Session SearchForm Utils Pipeline Samples.

(** C5 on a page whose keyword field holds a space, a tab and an
    ideographic space. *)
Lemma handleSubmit_blank_keyword_witness :
  trim (keyword blankPage) = []
  ∧ handleSubmit (NoReply (lit "Network Error")) blankPage
    = toast (ToastError msgEnterKeyword) blankPage
  ∧ sent (handleSubmit (NoReply (lit "Network Error")) blankPage) = [].
Proof.
  split; [reflexivity|].
  destruct (SearchFormFacts.handleSubmit_blank_keyword
              (NoReply (lit "Network Error")) blankPage eq_refl)
    as (H1 & H2 & _).
  split; [exact H1|exact H2].
Defined.

(** C6 on a 200 reply with status ['success'] and a payload, and on a
    200 reply with status ['error'] and a message. *)
Lemma getTopProducts_amended_witness :
  (getTopProducts loggedIn {| Types.keyword := lit "earbuds" |}
     (HttpReply 200 (reply success (Some response) None))).2
  = Fulfilled response
  ∧ (getTopProducts loggedIn {| Types.keyword := lit "earbuds" |}
       (HttpReply 200 (reply error None (Some "quota exceeded"%string)))).2
    = Rejected (Error (lit "quota exceeded")).
Proof.
  destruct (ApiFacts.getTopProducts_amended loggedIn
              {| Types.keyword := lit "earbuds" |}) as (H1 & H2 & _).
  split.
  - apply H1. exists 200%Z, (reply success (Some response) None).
    split; [reflexivity|]. split; [lia|]. split; reflexivity.
  - apply (H2 200%Z (reply error None (Some "quota exceeded"%string))).
    + lia.
    + left. reflexivity.
Defined.

(** C10 on a logged-in client whose search is answered 401 and that
    then reads the settings and tests the connection. *)
Lemma unauthorized_clears_token_witness :
  token (Session.step loggedIn
           (GetTopProducts {| Types.keyword := lit "earbuds" |}
              (HttpReply 401 (reply error None (Some "expired"%string))))).1 = None
  ∧ Forall (λ r, Authorization r = None)
      (Session.run (Session.step loggedIn
              (GetTopProducts {| Types.keyword := lit "earbuds" |}
                 (HttpReply 401 (reply error None (Some "expired"%string))))).1
           [GetConfigurations (HttpReply 200 (reply success (Some []) None));
            TestConnection (NoReply (lit "Network Error"))]).2.
Proof.
  apply (proj1 (proj2 ApiFacts.unauthorized_clears_token)).
  - reflexivity.
  - repeat constructor.
Defined.


(** C9 on a price with a thousands separator and one decimal. *)
Lemma formatPrice_amended_witness :
  firstNumber (lit "1,234.5 USD") = Some (lit "1234", lit "5")
  ∧ formatPrice (Some (PStr (lit "1,234.5 USD")))
    = yen ++ toFixed 2 (decimalNumber (lit "1234") (lit "5"))
  ∧ toFixed 2 (decimalNumber (lit "1234") (lit "5")) = lit "1234.50".
Proof.
  split; [reflexivity|]. split; [|reflexivity].
  apply (proj1 (proj2 (proj2 UtilsFacts.formatPrice_amended))
           (lit "1,234.5 USD") (lit "1234") (lit "5")).
  - reflexivity.
  - discriminate.
Defined.

(** C4 on two spellings of one keyword, with ASCII case folding. *)
Lemma cacheKey_normalization_witness :
  sameKeyword asciiLower (lit "  Wireless Earbuds ") (lit "wireless earBUDS")
  ∧ cacheKey asciiLower plainHash (lit "  Wireless Earbuds ")
    = cacheKey asciiLower plainHash (lit "wireless earBUDS").
Proof.
  assert (sameKeyword asciiLower (lit "  Wireless Earbuds ")
            (lit "wireless earBUDS")) as H.
  { exists (lit "  "), (lit "Wireless Earbuds"), (lit " "),
           [], (lit "wireless earBUDS"), [].
    repeat split; try reflexivity; repeat constructor. }
  split; [exact H|].
  exact (proj1 (PipelineFacts.cacheKey_normalization asciiLower plainHash
                  PipelineFacts.asciiLower_whitespace _ _ H)).
Defined.

(** C2 on a provider whose first answer invents a link: the repair
    attempt's answer is returned. *)
Lemma extract_provenance_witness :
  extract samplePrompt sampleStricter forgetful (lit "wireless earbuds")
    earbuds (lit "Pick three: ") = inr top3
  ∧ Forall (λ p, source_link p ∈ map link earbuds) top3.
Proof.
  assert (extract samplePrompt sampleStricter forgetful
            (lit "wireless earbuds") earbuds (lit "Pick three: ") = inr top3)
    as H by (vm_compute; reflexivity).
  split; [exact H|].
  exact (PipelineFacts.extract_provenance samplePrompt sampleStricter
           forgetful _ _ _ _ H).
Defined.

(** C7 on two submissions of one keyword: the second is served from
    the first. *)
Lemma cache_hit_verbatim_witness :
  (Pipeline.run asciiLower plainHash 100 samplePrompt sampleStricter
     ∅ [] twice).2 !! 1
  = Some (Answered second (inr (setCached true response)))
  ∧ ∃ i, servedFrom asciiLower plainHash
           (Pipeline.run asciiLower plainHash 100 samplePrompt sampleStricter
              ∅ [] twice).2
           i 1 second (setCached true response).
Proof.
  assert ((Pipeline.run asciiLower plainHash 100 samplePrompt sampleStricter
             ∅ [] twice).2 !! 1
          = Some (Answered second (inr (setCached true response)))) as H
    by (vm_compute; reflexivity).
  split; [exact H|].
  exact (proj1 (PipelineFacts.cache_hit_verbatim asciiLower plainHash 100
                  samplePrompt sampleStricter twice) 1 second _ H eq_refl).
Defined.

Import Scenarios.


(** X1 on a first login: the settings are then asked for with the
    token. *)
Lemma adminLogin_authorizes_witness :
  token (adminLogin newApiClient admin
           (HttpReply 200 (reply success (Some granted) None))).1.1
  = Some (lit "abc")
  ∧ Authorization
      (requestInterceptor {| token := Some (lit "abc") |} (get "/api/admin/settings"))
    = Some (lit "Bearer abc").
Proof.
  destruct (ClientFacts.adminLogin_authorizes newApiClient admin
              (HttpReply 200 (reply success (Some granted) None)) granted eq_refl)
    as (_ & H2 & H3).
  split; [exact H2|].
  exact (H3 (Session.GetConfigurations (NoReply (lit "Network Error"))) _ eq_refl).
Defined.

(** X2 on a login that is answered 403 with a message. *)
Lemma rejections_are_plain_errors_witness :
  ∃ msg, (adminLogin newApiClient admin
            (HttpReply 403 (reply error None (Some "no"%string)))).2
         = Rejected (Error msg)
         ∧ msg = msgLoginFailedPrefix ++ lit "no".
Proof.
  destruct (proj1 ClientFacts.rejections_are_plain_errors newApiClient admin
              (HttpReply 403 (reply error None (Some "no"%string))) _ eq_refl)
    as (msg & He & Hm).
  exists msg. split.
  - injection He as <-. reflexivity.
  - exact (Hm _ eq_refl).
Defined.

(** X3 on a logged-in client whose search fails with a 500 and whose
    health check gets no reply. *)
Lemma token_persists_witness :
  Forall (λ r, Authorization r = Some (lit "Bearer t0k3n"))
    (Session.run loggedIn
       [Session.GetTopProducts {| Types.keyword := lit "earbuds" |} failed;
        Session.TestConnection (NoReply (lit "Network Error"))]).2.
Proof.
  apply (ClientFacts.token_persists
           [Session.GetTopProducts {| Types.keyword := lit "earbuds" |} failed;
            Session.TestConnection (NoReply (lit "Network Error"))]
           loggedIn (lit "t0k3n") eq_refl).
  - discriminate.
  - repeat constructor.
Defined.

(** X4 on a logged-in client that logs out and then reads the
    settings. *)
Lemma logout_forgets_token_witness :
  Forall (λ r, Authorization r = None)
    (Session.run loggedIn
       [Session.Logout;
        Session.GetConfigurations (HttpReply 200 (reply success (Some []) None))]).2.
Proof.
  apply (ClientFacts.logout_forgets_token loggedIn
           [Session.GetConfigurations (HttpReply 200 (reply success (Some []) None))]).
  repeat constructor.
Defined.

(** X8 on a fresh answer to a typed keyword. *)
Lemma handleSubmit_success_witness :
  searchResults (handleSubmit found typedPage) = Some response
  ∧ toasts (handleSubmit found typedPage) = [ToastSuccess msgFresh].
Proof.
  destruct (PageFacts.handleSubmit_success found typedPage response)
    as (H1 & _ & H3 & _).
  - discriminate.
  - reflexivity.
  - split; [exact H1|exact H3].
Defined.

(** X7 on a 500 reply with a message. *)
Lemma handleSubmit_failure_witness :
  toasts (handleSubmit failed typedPage)
  = [ToastError (msgNetworkError ++ lit "boom")]
  ∧ searchResults (handleSubmit failed typedPage) = None.
Proof.
  destruct (PageFacts.handleSubmit_failure failed typedPage)
    as (H1 & _ & H3 & _).
  - discriminate.
  - reflexivity.
  - split; [exact H1|exact H3].
Defined.

(** X11 on a visitor who types a keyword and presses Enter. *)
Lemma page_shows_delivered_results_witness :
  ∃ w, w ∈ Page.replies searchOnce ∧ delivered w = Some response.
Proof.
  apply (PageFacts.page_shows_delivered_results searchOnce response).
  reflexivity.
Defined.

(** X14 on a price with a minus sign. *)
Lemma formatPrice_ignores_prefix_witness :
  formatPrice (Some (PStr (lit "-12.5"))) = formatPrice (Some (PStr (lit "12.5"))).
Proof.
  apply (FormatFacts.formatPrice_ignores_prefix (lit "-") (lit "12.5")).
  - repeat constructor.
  - discriminate.
Defined.

(** X15 on a comma in a sentence. *)
Lemma formatPrice_comma_run_witness :
  formatPrice (Some (PStr (lit "N/A, call"))) = yen ++ lit "NaN".
Proof.
  apply (FormatFacts.formatPrice_comma_run (lit "N/A") 1 (lit " call")).
  - repeat constructor.
  - lia.
  - split; reflexivity.
Defined.

(** X12 on the rating 4.25, a number that is exactly halfway. *)
Lemma formatRating_one_decimal_witness :
  ∃ t, formatRating (Some (parseFloat (lit "4.25"))) = t ++ star
       ∧ oneDecimal 43 t.
Proof.
  exact (proj1 (proj2 FormatFacts.formatRating_one_decimal
                  4785074604081152%positive (-50)%Z eq_refl)).
Defined.

(** X13 on sixteen code units cut to eight. *)
Lemma truncateText_cut_witness :
  ∃ k, truncateText (lit "wireless earbuds") (ofZ 8) = take k (lit "wireless earbuds") ++ lit "..."
       ∧ length (truncateText (lit "wireless earbuds") (ofZ 8)) = k + 3
       ∧ k = 8.
Proof.
  destruct (proj2 (FormatFacts.truncateText_cut (lit "wireless earbuds") (ofZ 8)) eq_refl)
    as (k & H1 & H2 & _ & H4).
  exists k. split; [exact H1|]. split; [exact H2|exact H4].
Defined.

(** X16 on the burst: the timer of the second call is the one that
    runs. *)
Lemma debounce_trailing_witness :
  ∃ before args since,
    burst = before ++ Debounce.Call args :: since
    ∧ Forall (λ ev, Debounce.isCall ev = false) since
    ∧ (Timers.timerDelay (ofZ 300) ≤ Debounce.elapsed since)%Z
    ∧ Debounce.invoked (default afterBurst (Debounce.step (ofZ 300) afterBurst (Debounce.Expire 2)))
      = Debounce.invoked afterBurst ++ [args].
Proof.
  apply (DebounceFacts.debounce_trailing (ofZ 300) burst afterBurst 2);
    vm_compute; reflexivity.
Defined.

(** X17 on the burst. *)
Lemma debounce_invocations_witness :
  Debounce.invoked afterBurst `sublist_of` Debounce.callArgs burst
  ∧ length (Debounce.invoked afterBurst) ≤ length (Debounce.callArgs burst)
  ∧ size (Timers.timers (Debounce.host afterBurst)) ≤ 1.
Proof.
  apply (DebounceFacts.debounce_invocations (ofZ 300) burst afterBurst).
  vm_compute; reflexivity.
Defined.

(** X18 on a third call after the burst. *)
Lemma debounce_last_call_witness :
  ∃ handle s',
    Debounce.run (ofZ 300) afterBurst
      [Debounce.Call (lit "abc"); Debounce.Wait 300; Debounce.Expire handle]
    = Some s'
    ∧ Debounce.invoked s' = Debounce.invoked afterBurst ++ [lit "abc"]
    ∧ Timers.timers (Debounce.host s') = ∅.
Proof.
  apply (DebounceFacts.debounce_last_call (ofZ 300) burst afterBurst (lit "abc") 300).
  - vm_compute; reflexivity.
  - vm_compute. discriminate.
Defined.



(** X21 on a second call one second after the first. *)
Lemma throttle_reopens_witness :
  ∃ handle s',
    Throttle.run (ofZ 1000) Throttle.throttle
      [Throttle.Call (lit "go") true; Throttle.Wait 1000;
       Throttle.Expire handle; Throttle.Call (lit "again") true]
    = Some s'
    ∧ Throttle.invoked s' = [lit "go"; lit "again"].
Proof.
  apply (ThrottleFacts.throttle_reopens (ofZ 1000) [] Throttle.throttle
           (lit "go") 1000 (lit "again") true eq_refl eq_refl).
  vm_compute. discriminate.
Defined.

(** X22 on the default [false] for a key that is not stored. *)
Lemma storage_get_default_witness :
  Storage.get readLiteral (lit "theme") (Some (Storage.JBool false)) (Storage.Browser ∅)
  = Storage.JNull.
Proof.
  destruct (StorageFacts.storage_get_default readLiteral (lit "theme")
              (Some (Storage.JBool false)) ∅) as [_ H].
  - left. reflexivity.
  - exact (H (Storage.JBool false) eq_refl eq_refl).
Defined.

(** X23 on the value [true]. *)
Lemma storage_set_get_witness :
  Storage.get readLiteral (lit "seen") None
    (Storage.set writeLiteral roomy (lit "seen") (Storage.JBool true) (Storage.Browser ∅))
  = Storage.JBool true.
Proof.
  apply (StorageFacts.storage_set_get readLiteral writeLiteral roomy
           (lit "seen") (Storage.JBool true) (Storage.JBool true) None ∅).
  - reflexivity.
  - discriminate.
  - reflexivity.
Defined.

(** X27 on a login followed by a request for the settings. *)
Lemma bearer_provenance_witness :
  Authorization
    (requestInterceptor {| token := Some (lit "abc") |} (get "/api/admin/settings"))
  = None
  ∨ ∃ t, Authorization
           (requestInterceptor {| token := Some (lit "abc") |}
              (get "/api/admin/settings"))
         = Some (lit "Bearer " ++ t)
         ∧ (token newApiClient = Some t
            ∨ ∃ before k after,
                [Session.AdminLogin admin
                   (HttpReply 200 (reply success (Some granted) None));
                 Session.GetConfigurations (NoReply (lit "Network Error"))]
                = before ++ k :: after
                ∧ Session.offered k = Some t
                ∧ requestInterceptor {| token := Some (lit "abc") |}
                    (get "/api/admin/settings")
                  ∈ (Session.run
                       (Session.step (Session.run newApiClient before).1 k).1
                       after).2).
Proof.
  apply (ClientFacts.bearer_provenance
           [Session.AdminLogin admin
              (HttpReply 200 (reply success (Some granted) None));
            Session.GetConfigurations (NoReply (lit "Network Error"))]
           newApiClient).
  vm_compute. repeat constructor.
Defined.

End Witnesses.
